(** * tinyvm_min: a four-opcode stack machine and its assembler

    A shallow embedding of [src/tinyvm_min.cpp]: the mnemonic table [MNEM],
    the assembler [assemble_lines] and the interpreter [run_bytecode],
    followed by the properties of the two that the specification states.

    Conventions of the embedding.
    - A [std::string] is a [string] (a sequence of 8-bit [ascii]).
    - A [uint8_t] opcode and an [int] stack cell are integers of [Z]; the
      masks [& 0xFF] of the source are written out with [Z.land].
    - A [std::vector] is a [list] in index order: [push_back] appends at the
      end, [back] reads the last element, [pop_back] removes it.
    - A [size_t] index is a [nat]; the sentinel [string::npos] is [None].
    - The streams are part of the machine state: [cin] is the sequence of
      lines still to be read, [cout] the bytes written so far, [cerr] the
      diagnostic lines written so far.
    - A [throw] is the [Throw] alternative of the result, a [return n]
      from inside the interpreter loop the [Return] alternative. *)

From Stdlib Require Import ZArith String Ascii DecimalString DecimalNat.
From Stdlib Require HexadecimalString.
From stdpp Require Import base decidable option list relations strings gmap.

Local Open Scope Z_scope.

(** ** Opcodes and the mnemonic table *)

Definition OP_READ  : Z := 0x01.
Definition OP_PRINT : Z := 0x02.
Definition OP_ADD   : Z := 0x03.
Definition OP_HALT  : Z := 0xFF.

(** [static const unordered_map<string,uint8_t> MNEM]. *)
Definition MNEM : gmap string Z :=
  {[ "READ" := OP_READ; "PRINT" := OP_PRINT; "ADD" := OP_ADD; "HALT" := OP_HALT ]}.

(** ** The parts of [std::string] and [std::vector] the program uses *)

Module Str.

(** The argument [" \t\r\n"] of both searches: space, tab, carriage
    return, line feed. *)
Definition blanks : string :=
  String " " (String "009" (String "013" (String "010" EmptyString))).

(** [c] occurs in [set]. *)
Fixpoint mem (c : ascii) (set : string) : bool :=
  match set with
  | EmptyString => false
  | String d set' => if Ascii.eqb c d then true else mem c set'
  end.

(** [s.find_first_not_of(set)]: the least index whose character is not in
    [set]; [None] is [npos]. *)
Fixpoint find_first_not_of (s set : string) : option nat :=
  match s with
  | EmptyString => None
  | String c s' =>
      if mem c set then S <$> find_first_not_of s' set else Some 0%nat
  end.

(** [s.find_last_not_of(set)]: the greatest such index; [None] is [npos]. *)
Fixpoint find_last_not_of (s set : string) : option nat :=
  match s with
  | EmptyString => None
  | String c s' =>
      match find_last_not_of s' set with
      | Some r => Some (S r)
      | None => if mem c set then None else Some 0%nat
      end
  end.

(** [s.substr(pos, len)] for [pos <= s.size()]: at most [len] characters
    from index [pos] on. *)
Definition substr (s : string) (pos len : nat) : string :=
  String.substring pos len s.

(** [s.empty()]. *)
Definition empty (s : string) : bool :=
  match s with EmptyString => true | String _ _ => false end.

(** [s[0] == c] on a string; on the empty string [s[0]] is the
    terminating zero character. *)
Definition front_is (s : string) (c : ascii) : bool :=
  match s with
  | EmptyString => Ascii.eqb zero c
  | String d _ => Ascii.eqb d c
  end.

(** [operator<<] of a [size_t]: the decimal numeral. *)
Definition decimal (n : nat) : string :=
  NilZero.string_of_uint (Nat.to_uint n).

(** [s.c_str()] read as a C string, which is how a [const char*] is
    printed and compared: the characters before the first zero character
    of [s], all of [s] when it has none. *)
Fixpoint c_str (s : string) : string :=
  match s with
  | EmptyString => EmptyString
  | String c s' => if Ascii.eqb c zero then EmptyString else String c (c_str s')
  end.

End Str.

Module Vec.
Section Vec.
Context {A : Type}.

Definition push_back (v : list A) (x : A) : list A := v ++ [x].
Definition pop_back (v : list A) : list A := removelast v.
(** [v.back()]; the default stands for the undefined read of an empty
    vector, which the program guards against. *)
Definition back (d : A) (v : list A) : A := List.last v d.
Definition empty (v : list A) : bool :=
  match v with [] => true | _ :: _ => false end.
Definition size (v : list A) : nat := length v.
End Vec.
End Vec.

(** ** The assembler *)

(** What [assemble_lines] hands back: the code vector, or the
    [runtime_error] it throws, with the string the exception is built
    from, [oss.str()] of line 49.  The program can look at that string
    through [what()] only, which is [Exn.what] below. *)
Inductive assembled : Type :=
  | Code (code : list Z)
  | Throw (message : string).

Module Exn.

(** [e.what()] of a [runtime_error] built from [message]: a
    [const char*], so the text ends at the first zero character that a
    source line may have put into [message]. *)
Definition what (message : string) : string := Str.c_str message.

End Exn.

(** Lines 40 to 43, the trimming: [None] when the [continue] of line 41 is
    taken, else the text between the first and the last character that is
    not a blank.  Were [r] equal to [npos], [r - l + 1] would wrap around
    to [2^64 - l], more than what is left of the line, and [substr] would
    run to the end of [raw]; [trim_last_found] shows that this never
    happens. *)
Definition trim (raw : string) : option string :=
  match Str.find_first_not_of raw Str.blanks with
  | None => None
  | Some l =>
      match Str.find_last_not_of raw Str.blanks with
      | Some r => Some (Str.substr raw l (r - l + 1))
      | None => Some (Str.substr raw l (String.length raw))
      end
  end.

(** The string that lines 47 and 48 build and line 49 gives to the
    exception, for the 0-based index [i]. *)
Definition invalid_instruction (i : nat) (line : string) : string :=
  "Linha " +:+ Str.decimal (i + 1) +:+ ": instrucao invalida: '" +:+ line +:+ "'".

(** The [for] loop of [assemble_lines], entered at index [i] with [lines]
    the lines from [i] on and [code] the bytes pushed so far. *)
Fixpoint assemble_from (i : nat) (lines : list string) (code : list Z) : assembled :=
  match lines with
  | [] => Code code
  | raw :: rest =>
      match trim raw with
      | None => assemble_from (S i) rest code
      | Some line =>
          if Str.empty line || Str.front_is line "#" then
            assemble_from (S i) rest code
          else
            match MNEM !! line with
            | None => Throw (invalid_instruction i line)
            | Some op => assemble_from (S i) rest (Vec.push_back code op)
            end
      end
  end.

Definition assemble_lines (lines : list string) : assembled :=
  assemble_from 0 lines [].

(** ** The interpreter *)

Module Hex.

(** One lower-case hexadecimal digit, for [0 <= d < 16]. *)
Definition digit (d : Z) : ascii :=
  if d <? 10 then ascii_of_N (Z.to_N (48 + d)) else ascii_of_N (Z.to_N (87 + d)).

(** [hex << setw(2) << setfill('0') << (int)op] for a [uint8_t] [op]. *)
Definition byte (op : Z) : string :=
  String (digit (op / 16)) (String (digit (op mod 16)) EmptyString).

End Hex.

(** The local variables of [run_bytecode] and the three standard streams. *)
Record machine : Type := Machine {
  ip : nat;             (* size_t ip *)
  stack : list Z;       (* vector<int> stack *)
  cin : list string;    (* the lines not read yet *)
  cout : list Z;        (* the bytes put so far *)
  cerr : list string    (* the diagnostic lines so far *)
}.

(** The state in which the [while] loop is entered. *)
Definition boot (input : list string) : machine :=
  {| ip := 0; stack := []; cin := input; cout := []; cerr := [] |}.

(** The lambda of lines 61 to 67, with the rest of the input beside its
    value.  [std::getline] fails exactly when no line is left. *)
Definition read_byte_from_stdin (input : list string) : Z * list string :=
  match input with
  | [] => (0, [])
  | s :: rest =>
      match s with
      | EmptyString => (0, rest)
      | String c _ => (Z.of_N (N_of_ascii c), rest)
      end
  end.

(** How one pass through the loop body ends: at its [break], or at a
    [return]. *)
Inductive outcome : Type :=
  | Continue (m : machine)
  | Return (status : Z) (m : machine).

(** The [switch] of lines 71 to 102 on the fetched [op]; [ip m] is already
    advanced.  The cells of the stack are [int]s that never leave 0..255
    ([reachable_stack_bytes]), so the sum of two of them is exact. *)
Definition dispatch (op : Z) (m : machine) : outcome :=
  if decide (op = OP_READ) then
    let '(b, rest) := read_byte_from_stdin (cin m) in
    Continue {| ip := ip m; stack := Vec.push_back (stack m) (Z.land b 0xFF);
                cin := rest; cout := cout m; cerr := cerr m |}
  else if decide (op = OP_PRINT) then
    if Vec.empty (stack m) then
      Return 2 {| ip := ip m; stack := stack m; cin := cin m; cout := cout m;
                  cerr := Vec.push_back (cerr m) "[VM] Stack underflow em PRINT" |}
    else
      let b := Vec.back 0 (stack m) in
      Continue {| ip := ip m; stack := Vec.pop_back (stack m); cin := cin m;
                  cout := Vec.push_back (cout m) (Z.land b 0xFF); cerr := cerr m |}
  else if decide (op = OP_ADD) then
    if decide (Vec.size (stack m) < 2)%nat then
      Return 2 {| ip := ip m; stack := stack m; cin := cin m; cout := cout m;
                  cerr := Vec.push_back (cerr m) "[VM] Stack underflow em ADD" |}
    else
      let a := Vec.back 0 (stack m) in
      let s1 := Vec.pop_back (stack m) in
      let b := Vec.back 0 s1 in
      let s2 := Vec.pop_back s1 in
      Continue {| ip := ip m; stack := Vec.push_back s2 (Z.land (a + b) 0xFF);
                  cin := cin m; cout := cout m; cerr := cerr m |}
  else if decide (op = OP_HALT) then
    Return 0 m
  else
    Return 3 {| ip := ip m; stack := stack m; cin := cin m; cout := cout m;
                cerr := Vec.push_back (cerr m)
                          ("[VM] Opcode desconhecido: 0x" +:+ Hex.byte op) |}.

(** [bc[i]], read only under the guard [i < bc.size()]. *)
Definition fetch (bc : list Z) (i : nat) : Z := nth i bc 0.

(** The loop body: [op = bc[ip++]], then the [switch]. *)
Definition iteration (bc : list Z) (m : machine) : outcome :=
  dispatch (fetch bc (ip m))
    {| ip := S (ip m); stack := stack m; cin := cin m; cout := cout m; cerr := cerr m |}.

(** What [run_bytecode] returns, with the machine it leaves behind. *)
Record finished : Type := Finished { status : Z; final : machine }.

(** The [while] loop of lines 69 to 103 and the [return 0] after it.
    [fuel] bounds the number of passes through the body: [None] means the
    bound was reached with the loop condition still true. *)
Fixpoint loop (fuel : nat) (bc : list Z) (m : machine) : option finished :=
  if decide (ip m < Vec.size bc)%nat then
    match fuel with
    | O => None
    | S fuel' =>
        match iteration bc m with
        | Continue m' => loop fuel' bc m'
        | Return st m' => Some (Finished st m')
        end
    end
  else Some (Finished 0 m).

(** [run_bytecode(bc)] with [input] on the standard input.  One pass per
    byte is all the loop can make ([loop_fuel]), so this much fuel never
    runs out. *)
Definition run_bytecode (bc : list Z) (input : list string) : option finished :=
  loop (length bc) bc (boot input).

(** ** The loop as a transition system *)

(** One pass through the body that comes back to the loop condition. *)
Definition step (bc : list Z) (m m' : machine) : Prop :=
  (ip m < length bc)%nat ∧ iteration bc m = Continue m'.

(** The loop is left at [m] with result [r]: the condition is false, or the
    pass from [m] ends in a [return]. *)
Definition leaves (bc : list Z) (m : machine) (r : finished) : Prop :=
  if decide (ip m < length bc)%nat
  then ∃ st m', iteration bc m = Return st m' ∧ r = Finished st m'
  else r = Finished 0 m.

(** The states the loop condition is evaluated in. *)
Definition reachable (bc : list Z) (input : list string) (m : machine) : Prop :=
  rtc (step bc) (boot input) m.

(** ** The vocabulary of the specification

    The specification speaks of the trimmed text of a line, of blank and
    comment lines, and of what the interpreter's return value stands for.
    These definitions follow its words; the lemmas below relate them to
    the code. *)

Module Spec.

(** Leading blanks removed. *)
Fixpoint strip_left (s : string) : string :=
  match s with
  | EmptyString => EmptyString
  | String c s' => if Str.mem c Str.blanks then strip_left s' else s
  end.

(** Trailing blanks removed. *)
Fixpoint strip_right (s : string) : string :=
  match s with
  | EmptyString => EmptyString
  | String c s' =>
      match strip_right s' with
      | EmptyString => if Str.mem c Str.blanks then EmptyString else String c EmptyString
      | t => String c t
      end
  end.

(** Section 4.1, step 1: leading and trailing whitespace trimmed. *)
Definition trimmed (raw : string) : string := strip_right (strip_left raw).

(** The first character of the line that is not whitespace, if any. *)
Definition first_nonblank (raw : string) : option ascii :=
  String.get 0 (strip_left raw).

(** Steps 2 and 3: a line that is blank after trimming, or whose first
    non-whitespace character is the hash sign. *)
Definition ignorable (raw : string) : bool :=
  match first_nonblank raw with
  | None => true
  | Some c => Ascii.eqb c "#"
  end.

(** A line whose trimmed text is not empty, does not start with the hash
    sign and is not in the mnemonic table. *)
Definition offending (raw : string) : Prop :=
  trimmed raw ≠ EmptyString ∧ String.get 0 (trimmed raw) ≠ Some "#"%char ∧
  MNEM !! trimmed raw = None.

(** The mnemonic table as section 3 lists it. *)
Definition table : list (string * Z) :=
  [("READ", 0x01); ("PRINT", 0x02); ("ADD", 0x03); ("HALT", 0xFF)].

(** A line that holds, between blanks, a mnemonic whose opcode is [op]. *)
Definition mnemonic_line (raw : string) (op : Z) : Prop :=
  (trimmed raw, op) ∈ table.

(** Section 4.1, last sentence: the output mirrors the input lines in
    order, minus the skipped ones.  [emits lines ops] holds when every
    line of [lines] is ignorable or a mnemonic line and [ops] lists the
    opcodes of the mnemonic lines in the order of the lines. *)
Inductive emits : list string → list Z → Prop :=
  | emits_nil : emits [] []
  | emits_skip raw lines ops :
      ignorable raw = true → emits lines ops → emits (raw :: lines) ops
  | emits_op raw op lines ops :
      mnemonic_line raw op → emits lines ops → emits (raw :: lines) (op :: ops).

(** A value that fits an unsigned byte. *)
Definition byte (v : Z) : Prop := 0 ≤ v ≤ 255.

(** Normal completion at [m]: the instruction pointer is past the end, or
    the byte under it is HALT. *)
Definition completes (bc : list Z) (m : machine) : Prop :=
  (length bc ≤ ip m)%nat ∨ ((ip m < length bc)%nat ∧ fetch bc (ip m) = 0xFF).

(** Stack underflow at [m]: the byte under the instruction pointer is
    PRINT and the stack is empty, or it is ADD and the stack has fewer
    than two elements. *)
Definition underflows (bc : list Z) (m : machine) : Prop :=
  (ip m < length bc)%nat ∧
  ((fetch bc (ip m) = 0x02 ∧ stack m = []) ∨
   (fetch bc (ip m) = 0x03 ∧ (length (stack m) < 2)%nat)).

(** Unknown opcode at [m]: the byte under the instruction pointer is none
    of the four opcodes. *)
Definition unknown_opcode (bc : list Z) (m : machine) : Prop :=
  (ip m < length bc)%nat ∧ fetch bc (ip m) ∉ [0x01; 0x02; 0x03; 0xFF].

End Spec.

#[global] Instance offending_dec (raw : string) : Decision (Spec.offending raw).
Proof. unfold Spec.offending. apply _. Defined.

(** The machine a pass through the loop body leaves behind. *)
Definition machine_of (o : outcome) : machine :=
  match o with Continue m | Return _ m => m end.

(** The machine after the fetch of one byte: [ip] advanced, all else kept. *)
Definition advance (m : machine) : machine :=
  {| ip := S (ip m); stack := stack m; cin := cin m; cout := cout m; cerr := cerr m |}.

(** ** The command line

    [main] works on files and on the standard streams.  The model of
    the operating system is this: [files] maps each path that can be
    opened for reading to the content of the file; [creatable] tells
    whether a path can be opened for writing; what is written to a file
    that was opened can be read back from it.  The standard input is the
    sequence of its lines, as in [machine]. *)

Module Stream.

(** The characters of [s] before its first line feed, and those after it;
    all of [s] and nothing when it has no line feed. *)
Fixpoint until_newline (s : string) : string * string :=
  match s with
  | EmptyString => (EmptyString, EmptyString)
  | String c s' =>
      if Ascii.eqb c "010" then (EmptyString, s')
      else let '(line, rest) := until_newline s' in (String c line, rest)
  end.

(** [std::getline(in, line)] when [s] is what is left of the stream: the
    call fails when nothing is left; else it extracts up to the first
    line feed, or to the end of the stream, and drops the line feed. *)
Definition getline (s : string) : option (string * string) :=
  match s with
  | EmptyString => None
  | String _ _ => Some (until_newline s)
  end.

(** [while (std::getline(fin, line)) lines.push_back(line);] with [fuel]
    a bound on the number of passes. *)
Fixpoint read_lines (fuel : nat) (s : string) (lines : list string)
    : option (list string) :=
  match getline s with
  | None => Some lines
  | Some (line, rest) =>
      match fuel with
      | O => None
      | S fuel' => read_lines fuel' rest (Vec.push_back lines line)
      end
  end.

(** [vector<uint8_t> bc(istreambuf_iterator<char>(fin), ...)]: every
    character of the file as an unsigned byte. *)
Definition bytes (s : string) : list Z :=
  (λ c, Z.of_N (N_of_ascii c)) <$> list_ascii_of_string s.

(** [fout.write(reinterpret_cast<const char*>(bc.data()), bc.size())]:
    every byte of the vector as a character. *)
Definition chars (bc : list Z) : string :=
  string_of_list_ascii ((λ b, ascii_of_N (Z.to_N b)) <$> bc).

End Stream.

(** What [main] finds when it starts. *)
Record os : Type := Os {
  files : gmap string string;
  creatable : string → bool;
  stdin : list string
}.

(** What [main] leaves when it returns [exit_code]. *)
Record exited : Type := Exited {
  exit_code : Z;
  files_left : gmap string string;
  stdin_left : list string;
  stdout : list Z;
  stderr : list string
}.

(** The paths [main] takes through [cerr << ...; return 1;]. *)
Definition bail_out (w : os) (diagnostic : list string) : exited :=
  Exited 1 (files w) (stdin w) [] diagnostic.

(** The [assemble] branch of [main], lines 117 to 138. *)
Definition main_assemble (args : list string) (w : os) : option exited :=
  match args with
  | [src; out] =>
      match files w !! src with
      | None => Some (bail_out w ["Nao consegui abrir '" +:+ src +:+ "'"])
      | Some text =>
          lines ← Stream.read_lines (String.length text) text [];
          match assemble_lines lines with
          | Throw message => Some (bail_out w [Exn.what message])
          | Code bc =>
              if creatable w out then
                Some (Exited 0 (<[out := Stream.chars bc]> (files w)) (stdin w) []
                        ["OK: gerado " +:+ out +:+ " ("
                         +:+ Str.decimal (length bc) +:+ " bytes)"])
              else Some (bail_out w ["Nao consegui escrever '" +:+ out +:+ "'"])
          end
      end
  | _ => Some (bail_out w ["Uso: assemble <fonte.src> <saida.tbc>"])
  end.

(** The [run] branch of [main], lines 140 to 148. *)
Definition main_run (args : list string) (w : os) : option exited :=
  match args with
  | [path] =>
      match files w !! path with
      | None => Some (bail_out w ["Nao consegui abrir '" +:+ path +:+ "'"])
      | Some text =>
          r ← run_bytecode (Stream.bytes text) (stdin w);
          Some (Exited (status r) (files w) (cin (final r)) (cout (final r))
                  (cerr (final r)))
      end
  | _ => Some (bail_out w ["Uso: run <arquivo.tbc>"])
  end.

(** [main(argc, argv)] with [argc] the length of [argv]; [argv[0]] is
    the name of the program. *)
Definition main (argv : list string) (w : os) : option exited :=
  match argv with
  | [] | [_] =>
      Some (bail_out w ["Uso:"; "  assemble <fonte.src> <saida.tbc>";
                       "  run <arquivo.tbc>"])
  | _ :: cmd :: args =>
      if decide (cmd = "assemble") then main_assemble args w
      else if decide (cmd = "run") then main_run args w
      else Some (bail_out w ["Comando invalido. Use 'assemble' ou 'run'."])
  end.

(** ** More vocabulary *)

(** A string of blanks only. *)
Fixpoint all_blank (s : string) : bool :=
  match s with
  | EmptyString => true
  | String c s' => Str.mem c Str.blanks && all_blank s'
  end.

(** The last character of a string, if it has one. *)
Fixpoint last_char (s : string) : option ascii :=
  match s with
  | EmptyString => None
  | String c EmptyString => Some c
  | String _ s' => last_char s'
  end.

(** The lines of a text file whose every line ends in a line feed. *)
Fixpoint unlines (lines : list string) : string :=
  match lines with
  | [] => EmptyString
  | l :: lines' => l +:+ String "010" (unlines lines')
  end.

(** A string without a line feed. *)
Fixpoint one_line (s : string) : bool :=
  match s with
  | EmptyString => true
  | String c s' => negb (Ascii.eqb c "010") && one_line s'
  end.

(** What READ pushes for the line [s]. *)
Definition line_value (s : string) : Z :=
  match s with
  | EmptyString => 0
  | String c _ => Z.of_N (N_of_ascii c)
  end.

(** [m] with its instruction pointer moved [k] bytes further. *)
Definition rebase (k : nat) (m : machine) : machine :=
  {| ip := k + ip m; stack := stack m; cin := cin m; cout := cout m; cerr := cerr m |}.

(** [m] as it is when the loop starts again at the first byte. *)
Definition restart (m : machine) : machine :=
  {| ip := 0; stack := stack m; cin := cin m; cout := cout m; cerr := cerr m |}.

(** Two machines at the same place with stacks and outputs of the same
    sizes and the same diagnostics. *)
Definition same_shape (m1 m2 : machine) : Prop :=
  ip m1 = ip m2 ∧ length (stack m1) = length (stack m2) ∧
  length (cout m1) = length (cout m2) ∧ cerr m1 = cerr m2.

(** Two machines that differ at most in the lines waiting on the input. *)
Definition same_but_input (P : list string → list string → Prop) (m1 m2 : machine) : Prop :=
  ip m1 = ip m2 ∧ stack m1 = stack m2 ∧ cout m1 = cout m2 ∧ cerr m1 = cerr m2 ∧
  P (cin m1) (cin m2).

(** How often the byte [op] occurs in [bc]. *)
Definition occurrences (op : Z) (bc : list Z) : nat :=
  length (filter (λ b, b = op) bc).

(** The same status, and machines that [R] relates. *)
Definition same_result (R : machine → machine → Prop) (r1 r2 : finished) : Prop :=
  status r1 = status r2 ∧ R (final r1) (final r2).

(** [r] with the instruction pointer of its machine moved [k] bytes
    further. *)
Definition rebase_result (k : nat) (r : finished) : finished :=
  Finished (status r) (rebase k (final r)).

(** [k2] is [k1] followed by empty lines. *)
Definition padded (k1 k2 : list string) : Prop :=
  ∃ n, k2 = k1 ++ replicate n EmptyString.

(** ** Examples *)

Example assemble_demo :
  assemble_lines ["READ"; " PRINT"; "# c"; ""; "HALT" +:+ String "013" ""]
  = Code [1; 2; 255].
Proof. vm_compute. reflexivity. Qed.

Example assemble_demo_err :
  assemble_lines ["READ"; ""; "FOO "; "BAR"]
  = Throw "Linha 3: instrucao invalida: 'FOO'".
Proof. vm_compute. reflexivity. Qed.

Example assemble_demo_line_11 :
  assemble_lines (replicate 10 "ADD" ++ ["add"])
  = Throw "Linha 11: instrucao invalida: 'add'".
Proof. vm_compute. reflexivity. Qed.

Example assemble_demo_inline_comment :
  assemble_lines ["ADD # sum"] = Throw "Linha 1: instrucao invalida: 'ADD # sum'".
Proof. vm_compute. reflexivity. Qed.

Example assemble_demo_zero_character :
  Exn.what <$>
    match assemble_lines ["FO" +:+ String "000" "O"] with
    | Throw message => Some message
    | Code _ => None
    end
  = Some "Linha 1: instrucao invalida: 'FO".
Proof. vm_compute. reflexivity. Qed.

Example read_lines_demo :
  Stream.read_lines 5 ("a" +:+ String "010" (String "010" "b")) [] = Some ["a"; ""; "b"].
Proof. vm_compute. reflexivity. Qed.

Example main_usage_demo :
  main ["tinyvm_min"] (Os ∅ (λ _, true) ["A"])
  = Some (Exited 1 ∅ ["A"] []
            ["Uso:"; "  assemble <fonte.src> <saida.tbc>"; "  run <arquivo.tbc>"]).
Proof. reflexivity. Qed.

Example main_assemble_crlf_demo :
  stderr <$>
    main ["tinyvm_min"; "assemble"; "a.src"; "a.tbc"]
      (Os {[ "a.src" := "READ" +:+ String "013" (String "010" "HALT") ]}
          (λ _, true) [])
  = Some ["OK: gerado a.tbc (2 bytes)"].
Proof. vm_compute. reflexivity. Qed.

Example main_assemble_error_demo :
  main ["tinyvm_min"; "assemble"; "a.src"; "a.tbc"]
    (Os {[ "a.src" := unlines ["READ"; "halt"] ]} (λ _, true) [])
  = Some (Exited 1 {[ "a.src" := unlines ["READ"; "halt"] ]} [] []
            ["Linha 2: instrucao invalida: 'halt'"]).
Proof. vm_compute. reflexivity. Qed.

Example main_assemble_zero_character_demo :
  stderr <$>
    main ["tinyvm_min"; "assemble"; "a.src"; "a.tbc"]
      (Os {[ "a.src" := "FO" +:+ String "000" "O" ]} (λ _, true) [])
  = Some ["Linha 1: instrucao invalida: 'FO"].
Proof. vm_compute. reflexivity. Qed.

Example main_run_missing_demo :
  main ["tinyvm_min"; "run"; "a.tbc"] (Os ∅ (λ _, true) [])
  = Some (Exited 1 ∅ [] [] ["Nao consegui abrir 'a.tbc'"]).
Proof. vm_compute. reflexivity. Qed.

Example run_read_print :
  run_bytecode [1; 2] ["A"]
  = Some (Finished 0 {| ip := 2; stack := []; cin := []; cout := [0x41]; cerr := [] |}).
Proof. vm_compute. reflexivity. Qed.

Example run_add_empty :
  run_bytecode [3] []
  = Some (Finished 2 {| ip := 1; stack := []; cin := []; cout := [];
                        cerr := ["[VM] Stack underflow em ADD"] |}).
Proof. vm_compute. reflexivity. Qed.

Example run_unknown :
  run_bytecode [0x99] []
  = Some (Finished 3 {| ip := 1; stack := []; cin := []; cout := [];
                        cerr := ["[VM] Opcode desconhecido: 0x99"] |}).
Proof. vm_compute. reflexivity. Qed.

Example run_unknown_0a :
  cerr <$> (final <$> run_bytecode [0x0a] []) = Some ["[VM] Opcode desconhecido: 0x0a"].
Proof. vm_compute. reflexivity. Qed.

Example run_sum :
  run_bytecode [1; 1; 3; 2; 255] [String "001" ""; String "002" ""]
  = Some (Finished 0 {| ip := 5; stack := []; cin := []; cout := [3]; cerr := [] |}).
Proof. vm_compute. reflexivity. Qed.

(** ** Strings: trimming *)

Section Trimming.

Local Arguments Str.mem : simpl never.

Lemma find_last_not_of_first (s : string) (l : nat) :
  Str.find_first_not_of s Str.blanks = Some l →
  ∃ r, Str.find_last_not_of s Str.blanks = Some r ∧ (l ≤ r)%nat.
Proof.
  revert l. induction s as [|c s IH]; intros l; simpl; [done|].
  destruct (Str.mem c Str.blanks) eqn:Hc.
  - destruct (Str.find_first_not_of s Str.blanks) as [l'|]; simpl; [|done].
    intros [= <-]. destruct (IH l' eq_refl) as (r & -> & Hr).
    exists (S r). split; [done|lia].
  - intros [= <-]. destruct (Str.find_last_not_of s Str.blanks) as [r|].
    + exists (S r). split; [done|lia].
    + exists 0%nat. done.
Qed.

(** The [None] alternative of the second search in [trim] is dead code. *)
Lemma trim_last_found (raw : string) :
  is_Some (Str.find_first_not_of raw Str.blanks) →
  is_Some (Str.find_last_not_of raw Str.blanks).
Proof.
  intros [l Hl]. destruct (find_last_not_of_first raw l Hl) as (r & -> & _). eauto.
Qed.

Lemma find_last_not_of_nonempty (s : string) (r : nat) :
  Str.find_last_not_of s Str.blanks = Some r → ∃ c s', s = String c s'.
Proof. destruct s; [done|eauto]. Qed.

Lemma strip_right_substring (s : string) :
  Spec.strip_right s =
    match Str.find_last_not_of s Str.blanks with
    | None => EmptyString
    | Some r => String.substring 0 (S r) s
    end.
Proof.
  induction s as [|c s IH]; simpl; [done|].
  rewrite IH. destruct (Str.find_last_not_of s Str.blanks) as [r|] eqn:Hr.
  - destruct (find_last_not_of_nonempty s r Hr) as (d & s' & ->). done.
  - destruct (Str.mem c Str.blanks); [done|]. by destruct s.
Qed.

(** The index arithmetic of [trim] computes the trimmed text; the
    [continue] of line 41 is taken exactly when that text is empty. *)
Lemma trim_trimmed (raw : string) :
  trim raw = if Str.empty (Spec.trimmed raw) then None else Some (Spec.trimmed raw).
Proof.
  unfold trim, Spec.trimmed. induction raw as [|c s IH]; simpl; [done|].
  destruct (Str.mem c Str.blanks) eqn:Hc.
  - rewrite <- IH. clear IH.
    destruct (Str.find_first_not_of s Str.blanks) as [l|] eqn:Hl; simpl; [|done].
    destruct (find_last_not_of_first s l Hl) as (r & -> & Hr).
    unfold Str.substr. simpl. repeat f_equal; lia.
  - clear IH. rewrite (strip_right_substring (String c s)). simpl.
    destruct (Str.find_last_not_of s Str.blanks) as [r|] eqn:Hr.
    + unfold Str.substr. replace (S r - 0 + 1)%nat with (S (S r)) by lia. done.
    + rewrite Hc. done.
Qed.

End Trimming.

(** ** The assembler, line by line *)

Section Lines.

Local Arguments Str.mem : simpl never.

Lemma strip_left_cases (raw : string) :
  Spec.strip_left raw = EmptyString ∨
  ∃ c s, Spec.strip_left raw = String c s ∧ Str.mem c Str.blanks = false.
Proof.
  induction raw as [|c s IH]; simpl; [by left|].
  destruct (Str.mem c Str.blanks) eqn:Hc; [done|]. right. eauto.
Qed.

Lemma strip_right_head (c : ascii) (s : string) :
  Str.mem c Str.blanks = false → ∃ t, Spec.strip_right (String c s) = String c t.
Proof.
  intros Hc. simpl. rewrite Hc. destruct (Spec.strip_right s); eauto.
Qed.

(** The trimmed text starts with the first non-blank character. *)
Lemma trimmed_front (raw : string) :
  String.get 0 (Spec.trimmed raw) = Spec.first_nonblank raw.
Proof.
  unfold Spec.trimmed, Spec.first_nonblank.
  destruct (strip_left_cases raw) as [->|(c & s & -> & Hc)]; [done|].
  destruct (strip_right_head c s Hc) as [t ->]. done.
Qed.

Lemma ignorable_trimmed (raw : string) :
  Spec.ignorable raw =
    Str.empty (Spec.trimmed raw) || Str.front_is (Spec.trimmed raw) "#".
Proof.
  unfold Spec.ignorable. rewrite <- trimmed_front.
  by destruct (Spec.trimmed raw).
Qed.

(** One pass through the body of the [for] loop, in the words of the
    specification: skip, emit, or throw. *)
Lemma assemble_from_cons (i : nat) (raw : string) (rest : list string) (code : list Z) :
  assemble_from i (raw :: rest) code =
    if Spec.ignorable raw then assemble_from (S i) rest code
    else match MNEM !! Spec.trimmed raw with
         | Some op => assemble_from (S i) rest (code ++ [op])
         | None => Throw (invalid_instruction i (Spec.trimmed raw))
         end.
Proof.
  simpl. rewrite trim_trimmed, ignorable_trimmed.
  destruct (Spec.trimmed raw) as [|c t]; done.
Qed.

(** [MNEM] holds the four entries of the specification's table. *)
Lemma MNEM_table (line : string) (op : Z) :
  MNEM !! line = Some op ↔ (line, op) ∈ Spec.table.
Proof.
  unfold MNEM, Spec.table, OP_READ, OP_PRINT, OP_ADD, OP_HALT.
  rewrite !lookup_insert_Some, lookup_singleton_Some, !elem_of_cons, elem_of_nil.
  split.
  - intros [[<- <-]|[? [[<- <-]|[? [[<- <-]|[? [<- <-]]]]]]]; tauto.
  - intros [[= -> ->]|[[= -> ->]|[[= -> ->]|[[= -> ->]|[]]]]];
      repeat (first [left; done | right; split; [done|]]); done.
Qed.

Lemma mnemonic_line_emits (raw : string) (op : Z) :
  Spec.mnemonic_line raw op →
  Spec.ignorable raw = false ∧ MNEM !! Spec.trimmed raw = Some op.
Proof.
  unfold Spec.mnemonic_line. intros H. split; [|by apply MNEM_table].
  rewrite ignorable_trimmed. revert H. unfold Spec.table.
  rewrite !elem_of_cons, elem_of_nil.
  intros [[= -> _]|[[= -> _]|[[= -> _]|[[= -> _]|[]]]]]; done.
Qed.

Lemma offending_throws (raw : string) :
  Spec.offending raw ↔
  Spec.ignorable raw = false ∧ MNEM !! Spec.trimmed raw = None.
Proof.
  unfold Spec.offending. rewrite ignorable_trimmed.
  destruct (Spec.trimmed raw) as [|c t]; simpl.
  { split; [intros [? _]|intros [? _]]; done. }
  destruct (Ascii.eqb_spec c "#") as [->|Hc].
  - split; [intros (_ & ? & _)|intros [? _]]; done.
  - split; [intros (_ & _ & ?); done|intros [_ ?]].
    split_and!; [done| |done]. intros [= ?]. done.
Qed.

Lemma assemble_from_emits (lines : list string) (ops : list Z) :
  Spec.emits lines ops →
  ∀ i code, assemble_from i lines code = Code (code ++ ops).
Proof.
  induction 1 as [|raw lines ops Hraw _ IH|raw op lines ops Hraw _ IH];
    intros i code.
  - simpl. by rewrite app_nil_r.
  - rewrite assemble_from_cons, Hraw. apply IH.
  - rewrite assemble_from_cons.
    destruct (mnemonic_line_emits raw op Hraw) as [-> ->].
    rewrite IH. by rewrite <- app_assoc.
Qed.

Lemma assemble_from_first_offending (lines : list string) :
  Exists Spec.offending lines →
  ∃ pre raw post,
    lines = pre ++ raw :: post ∧ Forall (λ l, ¬ Spec.offending l) pre ∧
    Spec.offending raw ∧
    ∀ i code post',
      assemble_from i (pre ++ raw :: post') code
      = Throw (invalid_instruction (i + length pre) (Spec.trimmed raw)).
Proof.
  induction lines as [|raw0 rest IH]; intros Hex; [by apply Exists_nil in Hex|].
  destruct (decide (Spec.offending raw0)) as [Hbad|Hok].
  - exists [], raw0, rest. split_and!; [done|constructor|done|].
    intros i code post'. simpl app. rewrite assemble_from_cons.
    apply offending_throws in Hbad as [-> ->]. simpl. by rewrite Nat.add_0_r.
  - apply Exists_cons in Hex as [?|Hex]; [done|].
    destruct (IH Hex) as (pre & raw & post & -> & Hpre & Hraw & Hthrow).
    exists (raw0 :: pre), raw, post. split_and!; [done|by constructor|done|].
    intros i code post'. simpl app. rewrite assemble_from_cons.
    simpl length. replace (i + S (length pre))%nat with (S i + length pre)%nat by lia.
    destruct (Spec.ignorable raw0) eqn:Hign; [apply Hthrow|].
    destruct (MNEM !! Spec.trimmed raw0) eqn:Hm; [apply Hthrow|].
    destruct Hok. by apply offending_throws.
Qed.

Lemma assemble_from_filter (lines : list string) :
  ∀ i j code, (j ≤ i)%nat →
    match assemble_from i lines code with
    | Code out =>
        assemble_from j (filter (λ raw, ¬ Spec.ignorable raw) lines) code = Code out
    | Throw what =>
        ∃ k k' text, (k' ≤ k)%nat ∧ what = invalid_instruction k text ∧
          assemble_from j (filter (λ raw, ¬ Spec.ignorable raw) lines) code
          = Throw (invalid_instruction k' text)
    end.
Proof.
  induction lines as [|raw rest IH]; intros i j code Hij; [done|].
  rewrite assemble_from_cons.
  destruct (Spec.ignorable raw) eqn:Hign.
  - rewrite filter_cons_False by (rewrite Hign; auto).
    apply IH. lia.
  - rewrite filter_cons_True by (rewrite Hign; auto).
    rewrite assemble_from_cons, Hign.
    destruct (MNEM !! Spec.trimmed raw) as [op|].
    + apply IH. lia.
    + eauto 10.
Qed.

End Lines.

(** ** Vectors used as stacks *)

Section Stack.
Context {A : Type}.
Implicit Types (v : list A) (x d : A).

Lemma back_push_back d v x : Vec.back d (Vec.push_back v x) = x.
Proof. apply last_last. Qed.

Lemma pop_back_push_back v x : Vec.pop_back (Vec.push_back v x) = v.
Proof. apply removelast_last. Qed.

Lemma vec_nonempty v : v ≠ [] → ∃ v' x, v = v' ++ [x].
Proof.
  destruct v as [|x v _] using rev_ind; [done|eauto].
Qed.

Lemma vec_two v : (2 ≤ length v)%nat → ∃ v' y x, v = v' ++ [y; x].
Proof.
  destruct v as [|x v _] using rev_ind; simpl; [lia|].
  destruct v as [|y v _] using rev_ind; simpl; [lia|].
  intros _. exists v, y, x. by rewrite <- app_assoc.
Qed.

End Stack.

(** ** The interpreter loop *)

Section Loop.
Variable bc : list Z.
Implicit Types (m : machine) (r : finished) (n fuel : nat).

(** [ip++] is the only assignment to [ip]: whatever the opcode does, the
    pass leaves [ip] one further. *)
Lemma iteration_ip m : ip (machine_of (iteration bc m)) = S (ip m).
Proof.
  unfold iteration, dispatch.
  repeat (case_decide || case_match); done.
Qed.

Lemma step_ip m m' : step bc m m' → ip m' = S (ip m).
Proof. intros [_ H]. rewrite <- (iteration_ip m), H. done. Qed.

Lemma loop_unfold fuel m :
  loop fuel bc m =
    if decide (ip m < length bc)%nat then
      match fuel with
      | O => None
      | S fuel' =>
          match iteration bc m with
          | Continue m' => loop fuel' bc m'
          | Return st m' => Some (Finished st m')
          end
      end
    else Some (Finished 0 m).
Proof. by destruct fuel. Qed.

Lemma loop_step n m m' : step bc m m' → loop (S n) bc m = loop n bc m'.
Proof.
  intros [Hlt H]. rewrite loop_unfold, decide_True by done. by rewrite H.
Qed.

Lemma loop_leaves n m r :
  leaves bc m r → ((ip m < length bc)%nat → (0 < n)%nat) → loop n bc m = Some r.
Proof.
  unfold leaves. intros H Hn. rewrite loop_unfold.
  destruct (decide (ip m < length bc)%nat) as [Hlt|_]; [|by subst].
  destruct n as [|n]; [specialize (Hn Hlt); lia|].
  destruct H as (st & m' & -> & ->). done.
Qed.

(** One unit of fuel per byte that is left is enough. *)
Lemma loop_total n m : (length bc - ip m ≤ n)%nat → is_Some (loop n bc m).
Proof.
  revert m. induction n as [|n IH]; intros m Hn; rewrite loop_unfold;
    (destruct (decide (ip m < length bc)%nat) as [Hlt|_]; [|by eauto]).
  - lia.
  - pose proof (iteration_ip m) as Hip.
    destruct (iteration bc m) as [m'|st m']; simpl in Hip; [|eauto].
    apply IH. lia.
Qed.

(** The loop makes exactly [ip (final r) - ip m] passes: with that much
    fuel or more it returns [r], with less it is cut short. *)
Lemma loop_fuel n m r :
  loop n bc m = Some r →
  (ip m ≤ ip (final r))%nat ∧ (ip (final r) ≤ length bc `max` ip m)%nat ∧
  ∀ fuel, loop fuel bc m
          = if decide (ip (final r) - ip m ≤ fuel)%nat then Some r else None.
Proof.
  revert m. induction n as [|n IH]; intros m; rewrite loop_unfold;
    (destruct (decide (ip m < length bc)%nat) as [Hlt|Hge];
     [|intros [= <-]; simpl; (split_and!; [lia..|]);
       intros fuel; rewrite loop_unfold, decide_False, decide_True by lia; done]).
  - done.
  - pose proof (iteration_ip m) as Hip.
    destruct (iteration bc m) as [m'|st m'] eqn:Hit; simpl in Hip.
    + intros Hr. destruct (IH m' Hr) as (Hlo & Hhi & Hfuel).
      split_and!; [lia..|].
      intros [|fuel]; rewrite loop_unfold, decide_True by done.
      * rewrite decide_False by lia. done.
      * rewrite Hit, Hfuel. repeat case_decide; done || lia.
    + intros [= <-]. simpl. split_and!; [lia..|].
      intros [|fuel]; rewrite loop_unfold, decide_True by done.
      * rewrite decide_False by lia. done.
      * rewrite Hit. rewrite decide_True by lia. done.
Qed.

(** What the loop returns, it returns on leaving from a state it reached. *)
Lemma loop_sound n m r :
  loop n bc m = Some r → ∃ m', rtc (step bc) m m' ∧ leaves bc m' r.
Proof.
  revert m. induction n as [|n IH]; intros m; rewrite loop_unfold;
    (destruct (decide (ip m < length bc)%nat) as [Hlt|Hge];
     [|intros [= <-]; exists m; split; [done|];
       unfold leaves; by rewrite decide_False]).
  - done.
  - destruct (iteration bc m) as [m'|st m'] eqn:Hit.
    + intros Hr. destruct (IH m' Hr) as (m'' & Hsteps & Hleave).
      exists m''. split; [|done]. by eapply rtc_l.
    + intros [= <-]. exists m. split; [done|].
      unfold leaves. rewrite decide_True by done. eauto.
Qed.

Lemma loop_complete m m' r :
  rtc (step bc) m m' → leaves bc m' r →
  ∀ n, (length bc - ip m ≤ n)%nat → loop n bc m = Some r.
Proof.
  induction 1 as [m|m m1 m' Hstep _ IH]; intros Hleave n Hn.
  - apply loop_leaves; [done|lia].
  - pose proof (step_ip _ _ Hstep) as Hip. destruct Hstep as [Hlt Hit].
    destruct n as [|n]; [lia|].
    rewrite (loop_step n m m1) by done. apply IH; [done|lia].
Qed.

Lemma run_bytecode_leaves input m r :
  reachable bc input m → leaves bc m r → run_bytecode bc input = Some r.
Proof.
  intros Hreach Hleave. eapply loop_complete; [done..|]. simpl. lia.
Qed.

Lemma run_bytecode_sound input r :
  run_bytecode bc input = Some r → ∃ m, reachable bc input m ∧ leaves bc m r.
Proof. apply loop_sound. Qed.

Lemma run_bytecode_total input : is_Some (run_bytecode bc input).
Proof. apply loop_total. lia. Qed.

End Loop.

(** ** The loop body, opcode by opcode *)

Section Opcodes.
Variable bc : list Z.
Implicit Types (m : machine) (s : list Z).

Lemma land_0xFF (x : Z) : Z.land x 0xFF = x `mod` 256.
Proof. change 0xFF with (Z.ones 8). by rewrite Z.land_ones. Qed.

Lemma land_0xFF_byte (x : Z) : Spec.byte (Z.land x 0xFF).
Proof. rewrite land_0xFF. unfold Spec.byte. pose proof (Z.mod_pos_bound x 256). lia. Qed.

Lemma ascii_byte (c : ascii) : Spec.byte (Z.of_N (N_of_ascii c)).
Proof. unfold Spec.byte. pose proof (N_ascii_bounded c). lia. Qed.

Lemma iteration_READ m :
  fetch bc (ip m) = OP_READ →
  iteration bc m =
    Continue {| ip := S (ip m);
                stack := stack m ++ [Z.land (read_byte_from_stdin (cin m)).1 0xFF];
                cin := (read_byte_from_stdin (cin m)).2;
                cout := cout m; cerr := cerr m |}.
Proof.
  intros Hop. unfold iteration, dispatch. rewrite Hop, decide_True by done. simpl.
  by destruct (read_byte_from_stdin (cin m)).
Qed.

Lemma iteration_PRINT_underflow m :
  fetch bc (ip m) = OP_PRINT → stack m = [] →
  iteration bc m =
    Return 2 {| ip := S (ip m); stack := []; cin := cin m; cout := cout m;
                cerr := cerr m ++ ["[VM] Stack underflow em PRINT"] |}.
Proof.
  intros Hop Hs. unfold iteration, dispatch.
  rewrite Hop, decide_False, decide_True by done. simpl. by rewrite Hs.
Qed.

Lemma iteration_PRINT m s b :
  fetch bc (ip m) = OP_PRINT → stack m = s ++ [b] →
  iteration bc m =
    Continue {| ip := S (ip m); stack := s; cin := cin m;
                cout := cout m ++ [Z.land b 0xFF]; cerr := cerr m |}.
Proof.
  intros Hop Hs. unfold iteration, dispatch.
  rewrite Hop, decide_False, decide_True by done. simpl. rewrite Hs.
  change (s ++ [b]) with (Vec.push_back s b).
  rewrite back_push_back, pop_back_push_back. unfold Vec.push_back. by destruct s.
Qed.

Lemma iteration_ADD_underflow m :
  fetch bc (ip m) = OP_ADD → (length (stack m) < 2)%nat →
  iteration bc m =
    Return 2 {| ip := S (ip m); stack := stack m; cin := cin m; cout := cout m;
                cerr := cerr m ++ ["[VM] Stack underflow em ADD"] |}.
Proof.
  intros Hop Hs. unfold iteration, dispatch.
  rewrite Hop, !decide_False, decide_True by done. simpl.
  unfold Vec.size. by rewrite decide_True.
Qed.

Lemma iteration_ADD m s b a :
  fetch bc (ip m) = OP_ADD → stack m = s ++ [b; a] →
  iteration bc m =
    Continue {| ip := S (ip m); stack := s ++ [Z.land (a + b) 0xFF];
                cin := cin m; cout := cout m; cerr := cerr m |}.
Proof.
  intros Hop Hs. unfold iteration, dispatch.
  rewrite Hop, !decide_False, decide_True by done. simpl.
  unfold Vec.size. rewrite Hs, decide_False by (rewrite length_app; simpl; lia).
  replace (s ++ [b; a]) with (Vec.push_back (Vec.push_back s b) a)
    by (unfold Vec.push_back; by rewrite <- app_assoc).
  by rewrite back_push_back, pop_back_push_back, back_push_back, pop_back_push_back.
Qed.

Lemma iteration_HALT m :
  fetch bc (ip m) = OP_HALT → iteration bc m = Return 0 (advance m).
Proof.
  intros Hop. unfold iteration, dispatch.
  by rewrite Hop, !decide_False, decide_True by done.
Qed.

Lemma iteration_unknown m :
  fetch bc (ip m) ∉ [OP_READ; OP_PRINT; OP_ADD; OP_HALT] →
  iteration bc m =
    Return 3 {| ip := S (ip m); stack := stack m; cin := cin m; cout := cout m;
                cerr := cerr m ++ ["[VM] Opcode desconhecido: 0x"
                                   +:+ Hex.byte (fetch bc (ip m))] |}.
Proof.
  rewrite !not_elem_of_cons. intros (? & ? & ? & ? & _).
  unfold iteration, dispatch. by rewrite !decide_False by done.
Qed.

(** The five ways through the [switch], told apart by the fetched byte
    and the height of the stack. *)
Lemma iteration_cases m :
  (fetch bc (ip m) = OP_READ ∧ (∃ m', iteration bc m = Continue m')) ∨
  (fetch bc (ip m) = OP_PRINT ∧ stack m ≠ [] ∧
     (∃ m', iteration bc m = Continue m')) ∨
  (fetch bc (ip m) = OP_ADD ∧ (2 ≤ length (stack m))%nat ∧
     (∃ m', iteration bc m = Continue m')) ∨
  (fetch bc (ip m) = OP_HALT ∧ iteration bc m = Return 0 (advance m)) ∨
  (fetch bc (ip m) = OP_PRINT ∧ stack m = [] ∧
     (∃ m', iteration bc m = Return 2 m')) ∨
  (fetch bc (ip m) = OP_ADD ∧ (length (stack m) < 2)%nat ∧
     (∃ m', iteration bc m = Return 2 m')) ∨
  ((fetch bc (ip m) ∉ [OP_READ; OP_PRINT; OP_ADD; OP_HALT]) ∧
     (∃ m', iteration bc m = Return 3 m')).
Proof.
  destruct (decide (fetch bc (ip m) = OP_READ)) as [Hop|Hread].
  { left. split; [done|]. rewrite iteration_READ by done. eauto. }
  destruct (decide (fetch bc (ip m) = OP_PRINT)) as [Hop|Hprint].
  { destruct (decide (stack m = [])) as [Hs|Hs].
    - do 4 right. left. rewrite (iteration_PRINT_underflow m) by done. eauto.
    - right. left. destruct (vec_nonempty _ Hs) as (s & b & Hsb).
      rewrite (iteration_PRINT m s b) by done. eauto. }
  destruct (decide (fetch bc (ip m) = OP_ADD)) as [Hop|Hadd].
  { destruct (decide (length (stack m) < 2)%nat) as [Hs|Hs].
    - do 5 right. left. rewrite (iteration_ADD_underflow m) by done. eauto.
    - do 2 right. left. destruct (vec_two (stack m)) as (s & b & a & Hsba); [lia|].
      rewrite (iteration_ADD m s b a) by done. split_and!; [done|lia|eauto]. }
  destruct (decide (fetch bc (ip m) = OP_HALT)) as [Hop|Hhalt].
  { do 3 right. left. by rewrite iteration_HALT. }
  do 6 right. assert (fetch bc (ip m) ∉ [OP_READ; OP_PRINT; OP_ADD; OP_HALT]) as Hno.
  { rewrite !not_elem_of_cons. split_and!; try done. apply not_elem_of_nil. }
  rewrite iteration_unknown by done. eauto.
Qed.

(** A [return] leaves the stack and the input as they were and writes
    nothing to the standard output. *)
Lemma iteration_Return m st m' :
  iteration bc m = Return st m' →
  ip m' = S (ip m) ∧ stack m' = stack m ∧ cin m' = cin m ∧ cout m' = cout m.
Proof.
  unfold iteration, dispatch.
  repeat (case_decide || case_match); intros [= <- <-]; done.
Qed.

(** A pass that comes back to the loop condition keeps the stack cells
    bytes: what it pushes is masked. *)
Lemma step_stack_bytes m m' :
  step bc m m' → Forall Spec.byte (stack m) → Forall Spec.byte (stack m').
Proof.
  intros [_ Hit] Hm.
  destruct (iteration_cases m)
    as [[Hop _]|[(Hop & Hs & _)|[(Hop & Hs & _)|[[_ H]|[(_ & _ & ? & H)|[(_ & _ & ? & H)|(_ & ? & H)]]]]]];
    try congruence.
  - rewrite iteration_READ in Hit by done. injection Hit as <-. simpl.
    apply Forall_app. split; [done|]. apply Forall_singleton, land_0xFF_byte.
  - destruct (vec_nonempty _ Hs) as (s & b & Hsb).
    rewrite (iteration_PRINT m s b) in Hit by done. injection Hit as <-. simpl.
    rewrite Hsb in Hm. by apply Forall_app in Hm as [? _].
  - destruct (vec_two (stack m) Hs) as (s & b & a & Hsba).
    rewrite (iteration_ADD m s b a) in Hit by done. injection Hit as <-. simpl.
    rewrite Hsba in Hm. apply Forall_app in Hm as [? _].
    apply Forall_app. split; [done|]. apply Forall_singleton, land_0xFF_byte.
Qed.

Lemma reachable_stack_bytes input m :
  reachable bc input m → Forall Spec.byte (stack m).
Proof.
  unfold reachable. revert m. apply rtc_ind_r.
  - constructor.
  - intros m1 m2 _ Hstep IH. by eapply step_stack_bytes.
Qed.

Lemma not_an_opcode (x : Z) :
  x ∉ [0x01; 0x02; 0x03; 0xFF] ↔ x ≠ 1 ∧ x ≠ 2 ∧ x ≠ 3 ∧ x ≠ 255.
Proof.
  rewrite !not_elem_of_cons. pose proof (not_elem_of_nil x). tauto.
Qed.

(** The status with which the loop is left tells how it was left. *)
Lemma leaves_status m r :
  leaves bc m r →
  (status r = 0 ∨ status r = 2 ∨ status r = 3) ∧
  (status r = 0 ↔ Spec.completes bc m) ∧
  (status r = 2 ↔ Spec.underflows bc m) ∧
  (status r = 3 ↔ Spec.unknown_opcode bc m).
Proof.
  unfold leaves, Spec.completes, Spec.underflows, Spec.unknown_opcode.
  rewrite not_an_opcode.
  destruct (decide (ip m < length bc)%nat) as [Hlt|Hge].
  - intros (st & m' & Hit & ->). simpl.
    destruct (iteration_cases m)
      as [(Hop & ? & H)|[(Hop & Hs & ? & H)|[(Hop & Hs & ? & H)|[[Hop H]|
          [(Hop & Hs & ? & H)|[(Hop & Hs & ? & H)|(Hno & ? & H)]]]]]];
      rewrite H in Hit; try done; injection Hit as <- <-;
      try apply (proj1 (not_an_opcode _)) in Hno;
      unfold OP_READ, OP_PRINT, OP_ADD, OP_HALT in *;
      intuition (lia || congruence).
  - intros ->. simpl. intuition (lia || congruence).
Qed.

End Opcodes.

(** ** Bytecode with something appended *)

Section Append.
Variables bc rest : list Z.

Lemma fetch_app (i : nat) :
  (i < length bc)%nat → fetch (bc ++ rest) i = fetch bc i.
Proof. intros Hi. unfold fetch. by rewrite app_nth1. Qed.

(** A pass over [bc] is the same pass over [bc ++ rest]: the body reads
    the one byte under [ip] and nothing else of the vector. *)
Lemma step_app m m' : step bc m m' → step (bc ++ rest) m m'.
Proof.
  intros [Hlt Hit]. split; [rewrite length_app; lia|].
  unfold iteration in *. by rewrite fetch_app.
Qed.

Lemma reachable_app input m :
  reachable bc input m → reachable (bc ++ rest) input m.
Proof.
  unfold reachable. induction 1 as [|m0 m1 m2 Hstep _ IH]; [done|].
  eapply rtc_l; [by apply step_app|done].
Qed.

(** A [return] from inside the loop over [bc] is the same [return] from
    the loop over [bc ++ rest]. *)
Lemma leaves_app m r :
  (ip m < length bc)%nat → leaves bc m r → leaves (bc ++ rest) m r.
Proof.
  unfold leaves. intros Hlt. rewrite !decide_True by (rewrite ?length_app; lia).
  unfold iteration. by rewrite fetch_app.
Qed.

End Append.

(** ** The assembler: what the specification states *)

(** Each line that assembles appends its opcode to what the lines before
    it gave. *)
Lemma assemble_lines_snoc (lines : list string) (code : list Z) (raw : string) (op : Z) :
  assemble_lines lines = Code code → Spec.mnemonic_line raw op →
  assemble_lines (lines ++ [raw]) = Code (code ++ [op]).
Proof.
  unfold assemble_lines. intros Hlines Hraw. revert Hlines.
  generalize 0%nat at 1 2. generalize (@nil Z) at 1 2.
  induction lines as [|l lines IH]; intros acc i Hlines.
  - injection Hlines as <-. simpl app. rewrite assemble_from_cons.
    by destruct (mnemonic_line_emits raw op Hraw) as [-> ->].
  - simpl app. rewrite assemble_from_cons in *.
    destruct (Spec.ignorable l); [by apply IH|].
    destruct (MNEM !! Spec.trimmed l); [by apply IH|done].
Qed.

(** C1. Each mnemonic line (READ, PRINT, ADD or HALT, blanks around it
    allowed) appends the opcode that the table assigns to it (READ 0x01,
    PRINT 0x02, ADD 0x03, HALT 0xFF): a program of mnemonic lines, with or
    without ignorable lines between them, assembles to the opcodes of its
    mnemonic lines, one byte per line, in the order of the lines. *)
Theorem assemble_lines_mnemonics (lines : list string) (ops : list Z) :
  Spec.emits lines ops → assemble_lines lines = Code ops.
Proof.
  intros H. unfold assemble_lines.
  by rewrite (assemble_from_emits lines ops H).
Qed.

(** The four-line program READ, PRINT, ADD, HALT assembles to the bytes
    0x01 0x02 0x03 0xFF. *)
Lemma assemble_lines_four_mnemonics :
  assemble_lines ["READ"; "PRINT"; "ADD"; "HALT"] = Code [0x01; 0x02; 0x03; 0xFF].
Proof.
  apply assemble_lines_mnemonics.
  repeat (apply Spec.emits_op || apply Spec.emits_nil);
    unfold Spec.mnemonic_line, Spec.table;
    rewrite !elem_of_cons; vm_compute; tauto.
Defined.

(** C8. Deleting the ignorable lines (blank after trimming, or with the
    hash sign as first non-blank character) changes neither the code that
    is assembled nor whether assembly fails; when it fails, the offending
    text reported is the same and only the line number may differ. *)
Theorem assemble_lines_skips_ignorable (lines : list string) :
  match assemble_lines lines with
  | Code code =>
      assemble_lines (filter (λ raw, ¬ Spec.ignorable raw) lines) = Code code
  | Throw what =>
      ∃ i j text, (j ≤ i)%nat ∧
        what = invalid_instruction i text ∧
        assemble_lines (filter (λ raw, ¬ Spec.ignorable raw) lines)
        = Throw (invalid_instruction j text)
  end.
Proof. apply assemble_from_filter. done. Qed.

(** ** The interpreter: what the specification states *)

(** C3. A READ pushes one value and takes the next line, if there is one,
    off the input, whole: on exhausted input and on an empty line the
    value is 0, else it is the code of the first character of the line, a
    value from 0 to 255; the other characters of the line are not looked
    at and are gone with it. *)
Theorem READ_pushes_first_character (bc : list Z) (m : machine) :
  (ip m < length bc)%nat → fetch bc (ip m) = OP_READ →
  ∃ v, Spec.byte v ∧
    iteration bc m =
      Continue {| ip := S (ip m); stack := stack m ++ [v]; cin := tail (cin m);
                  cout := cout m; cerr := cerr m |} ∧
    match cin m with
    | [] => v = 0
    | EmptyString :: _ => v = 0
    | String c _ :: _ => v = Z.of_N (N_of_ascii c)
    end.
Proof.
  intros _ Hop. rewrite (iteration_READ bc m Hop).
  exists (Z.land (read_byte_from_stdin (cin m)).1 0xFF).
  split; [apply land_0xFF_byte|].
  destruct (cin m) as [|[|c line] rest]; simpl; try done.
  split; [done|]. rewrite land_0xFF. apply Z.mod_small.
  pose proof (ascii_byte c) as Hc. unfold Spec.byte in Hc. lia.
Qed.

(** READ with the lines AB and C waiting pushes 65, the code of A, and
    leaves the line C. *)
Lemma READ_pushes_first_character_AB :
  iteration [OP_READ] (boot ["AB"; "C"]) =
    Continue {| ip := 1; stack := [65]; cin := ["C"]; cout := []; cerr := [] |}.
Proof.
  destruct (READ_pushes_first_character [OP_READ] (boot ["AB"; "C"]))
    as (v & _ & -> & ->); [simpl; lia|reflexivity|].
  reflexivity.
Defined.

(** C4. An ADD on a stack of at least two values takes the two topmost
    off and puts their sum modulo 256 in their place. *)
Theorem ADD_pushes_sum_modulo_256 (bc : list Z) (m : machine) :
  (ip m < length bc)%nat → fetch bc (ip m) = OP_ADD → (2 ≤ length (stack m))%nat →
  ∃ s b a, stack m = s ++ [b; a] ∧
    iteration bc m =
      Continue {| ip := S (ip m); stack := s ++ [(a + b) `mod` 256]; cin := cin m;
                  cout := cout m; cerr := cerr m |}.
Proof.
  intros _ Hop Hlen. destruct (vec_two (stack m) Hlen) as (s & b & a & Hs).
  exists s, b, a. split; [done|].
  rewrite (iteration_ADD bc m s b a Hop Hs). by rewrite land_0xFF.
Qed.

(** ADD on the stack 200, 100 leaves 44. *)
Lemma ADD_pushes_sum_modulo_256_wraps :
  iteration [OP_ADD] {| ip := 0; stack := [200; 100]; cin := []; cout := []; cerr := [] |} =
    Continue {| ip := 1; stack := [44]; cin := []; cout := []; cerr := [] |}.
Proof.
  destruct (ADD_pushes_sum_modulo_256 [OP_ADD]
              {| ip := 0; stack := [200; 100]; cin := []; cout := []; cerr := [] |})
    as (s & b & a & Hs & ->); [simpl; lia|reflexivity|simpl; lia|].
  destruct s as [|x [|y [|z s]]]; simplify_eq/=. reflexivity.
Defined.

Lemma completes_leaves (bc : list Z) (m : machine) :
  Spec.completes bc m → ∃ r, leaves bc m r ∧ status r = 0.
Proof.
  unfold leaves. intros [Hge|[Hlt Hop]].
  - exists (Finished 0 m). by rewrite decide_False by lia.
  - exists (Finished 0 (advance m)). rewrite decide_True by done.
    split; [|done]. exists 0, (advance m). split; [|done]. by apply iteration_HALT.
Qed.

Lemma underflows_leaves (bc : list Z) (m : machine) :
  Spec.underflows bc m → ∃ r, leaves bc m r ∧ status r = 2.
Proof.
  unfold leaves. intros [Hlt [[Hop Hs]|[Hop Hs]]];
    eexists (Finished 2 _); rewrite decide_True by done.
  - split; [|done]. eexists _, _. split; [|done].
    by apply iteration_PRINT_underflow.
  - split; [|done]. eexists _, _. split; [|done].
    by apply iteration_ADD_underflow.
Qed.

Lemma unknown_opcode_leaves (bc : list Z) (m : machine) :
  Spec.unknown_opcode bc m → ∃ r, leaves bc m r ∧ status r = 3.
Proof.
  unfold leaves. intros [Hlt Hop].
  eexists (Finished 3 _). rewrite decide_True by done.
  split; [|done]. eexists _, _. split; [|done].
  by apply iteration_unknown.
Qed.

(** C2. Whatever the bytecode and the input, [run_bytecode] returns, and
    its status is 0, 2 or 3.  Whenever the loop comes to a state [m'] that
    is past the end or at a HALT, the status is 0; whenever it comes to a
    PRINT or an ADD with too short a stack, the status is 2; whenever it
    comes to a byte that is no opcode, the status is 3.  Conversely, with
    [m] the state in which the loop is left, the status is 0, 2 or 3 only
    if [m] is in the matching one of the three conditions, so no two of
    them give the same status. *)
Theorem run_bytecode_status (bc : list Z) (input : list string) :
  ∃ m r,
    reachable bc input m ∧ leaves bc m r ∧ run_bytecode bc input = Some r ∧
    (status r = 0 ∨ status r = 2 ∨ status r = 3) ∧
    (status r = 0 ↔ Spec.completes bc m) ∧
    (status r = 2 ↔ Spec.underflows bc m) ∧
    (status r = 3 ↔ Spec.unknown_opcode bc m) ∧
    ∀ m', reachable bc input m' →
      (Spec.completes bc m' → status r = 0) ∧
      (Spec.underflows bc m' → status r = 2) ∧
      (Spec.unknown_opcode bc m' → status r = 3).
Proof.
  destruct (run_bytecode_total bc input) as [r Hr].
  destruct (run_bytecode_sound bc input r Hr) as (m & Hreach & Hleave).
  exists m, r. pose proof (leaves_status bc m r Hleave) as (? & ? & ? & ?).
  split_and!; [done..|].
  intros m' Hreach'. split_and!; intros Hcond.
  - destruct (completes_leaves bc m' Hcond) as (r' & Hleave' & Hst).
    pose proof (run_bytecode_leaves bc input m' r' Hreach' Hleave'). congruence.
  - destruct (underflows_leaves bc m' Hcond) as (r' & Hleave' & Hst).
    pose proof (run_bytecode_leaves bc input m' r' Hreach' Hleave'). congruence.
  - destruct (unknown_opcode_leaves bc m' Hcond) as (r' & Hleave' & Hst).
    pose proof (run_bytecode_leaves bc input m' r' Hreach' Hleave'). congruence.
Qed.

(** C5. When the loop comes back to its condition with the instruction
    pointer at the end of the bytecode (every pass so far ended at its
    [break], none at a [return]), [run_bytecode] returns 0 and leaves
    the machine as it is.  For the empty bytecode that is the machine in
    its first state: nothing written, nothing read. *)
Theorem run_bytecode_off_the_end :
  (∀ bc input m,
     reachable bc input m → ip m = length bc →
     run_bytecode bc input = Some (Finished 0 m)) ∧
  (∀ input,
     run_bytecode [] input
     = Some (Finished 0 {| ip := 0; stack := []; cin := input; cout := []; cerr := [] |})).
Proof.
  split; [|done].
  intros bc input m Hreach Hip. apply (run_bytecode_leaves bc input m); [done|].
  unfold leaves. by rewrite decide_False by lia.
Qed.

(** READ, PRINT with the line A on the input prints 0x41 and returns 0
    without a HALT. *)
Lemma run_bytecode_off_the_end_READ_PRINT :
  run_bytecode [OP_READ; OP_PRINT] ["A"]
  = Some (Finished 0 {| ip := 2; stack := []; cin := []; cout := [0x41]; cerr := [] |}).
Proof.
  apply (proj1 run_bytecode_off_the_end); [|reflexivity].
  eapply rtc_l; [split; [simpl; lia|reflexivity]|].
  eapply rtc_l; [split; [simpl; lia|reflexivity]|].
  apply rtc_refl.
Defined.

(** C6. When the run of [p ++ [0xFF]] comes to the HALT at the end, it
    returns 0 there, and so does the run of [p ++ [0xFF] ++ s], with the
    same machine: same output, same input left, [ip] just past the HALT.
    No byte of [s] is fetched. *)
Theorem HALT_returns_at_once (p s : list Z) (input : list string) (m : machine) :
  reachable (p ++ [OP_HALT]) input m → ip m = length p →
  run_bytecode (p ++ [OP_HALT]) input = Some (Finished 0 (advance m)) ∧
  run_bytecode (p ++ [OP_HALT] ++ s) input = Some (Finished 0 (advance m)).
Proof.
  intros Hreach Hip.
  assert (ip m < length (p ++ [OP_HALT]))%nat as Hlt
    by (rewrite length_app; simpl; lia).
  assert (leaves (p ++ [OP_HALT]) m (Finished 0 (advance m))) as Hleave.
  { unfold leaves. rewrite decide_True by done.
    exists 0, (advance m). split; [|done]. apply iteration_HALT.
    unfold fetch. rewrite Hip. apply nth_middle. }
  split.
  - by apply (run_bytecode_leaves _ input m).
  - rewrite app_assoc. apply (run_bytecode_leaves _ input m).
    + by apply reachable_app.
    + by apply leaves_app.
Qed.

(** After READ, PRINT, HALT the two bytes 0x99 and ADD change nothing. *)
Lemma HALT_returns_at_once_READ_PRINT :
  run_bytecode [OP_READ; OP_PRINT; OP_HALT] ["A"]
  = Some (Finished 0 {| ip := 3; stack := []; cin := []; cout := [0x41]; cerr := [] |}) ∧
  run_bytecode [OP_READ; OP_PRINT; OP_HALT; 0x99; OP_ADD] ["A"]
  = Some (Finished 0 {| ip := 3; stack := []; cin := []; cout := [0x41]; cerr := [] |}).
Proof.
  apply (HALT_returns_at_once [OP_READ; OP_PRINT] [0x99; OP_ADD] ["A"]
           {| ip := 2; stack := []; cin := []; cout := [0x41]; cerr := [] |});
    [|reflexivity].
  eapply rtc_l; [split; [simpl; lia|reflexivity]|].
  eapply rtc_l; [split; [simpl; lia|reflexivity]|].
  apply rtc_refl.
Defined.

(** C9. Every cell of the stack is a value from 0 to 255, at every point
    of every run: the stack is empty at first, each pass through the loop
    body keeps the property (READ and ADD push masked values, PRINT only
    pops), so it holds whenever the loop condition is evaluated and in the
    machine [run_bytecode] leaves behind. *)
Theorem stack_holds_bytes :
  (∀ input, Forall Spec.byte (stack (boot input))) ∧
  (∀ bc m m', step bc m m' → Forall Spec.byte (stack m) → Forall Spec.byte (stack m')) ∧
  (∀ bc input m, reachable bc input m → Forall Spec.byte (stack m)) ∧
  (∀ bc input r, run_bytecode bc input = Some r → Forall Spec.byte (stack (final r))).
Proof.
  split_and!.
  - intros input. constructor.
  - apply step_stack_bytes.
  - apply reachable_stack_bytes.
  - intros bc input r Hr.
    destruct (run_bytecode_sound bc input r Hr) as (m & Hreach & Hleave).
    pose proof (reachable_stack_bytes bc input m Hreach) as Hm.
    unfold leaves in Hleave. case_decide.
    + destruct Hleave as (st & m' & Hit & ->). simpl.
      apply iteration_Return in Hit as (_ & -> & _). done.
    + by subst r.
Qed.

(** READ, READ, ADD on the lines 0xC8 and 0x64 leaves the one cell 44. *)
Lemma stack_holds_bytes_after_ADD :
  reachable [OP_READ; OP_READ; OP_ADD] [String "200" ""; String "100" ""]
    {| ip := 3; stack := [44]; cin := []; cout := []; cerr := [] |} ∧
  Forall Spec.byte [44].
Proof.
  assert (reachable [OP_READ; OP_READ; OP_ADD] [String "200" ""; String "100" ""]
            {| ip := 3; stack := [44]; cin := []; cout := []; cerr := [] |}) as Hreach.
  { eapply rtc_l; [split; [simpl; lia|reflexivity]|].
    eapply rtc_l; [split; [simpl; lia|reflexivity]|].
    eapply rtc_l; [split; [simpl; lia|reflexivity]|].
    apply rtc_refl. }
  split; [exact Hreach|].
  exact (proj1 (proj2 (proj2 stack_holds_bytes)) _ _ _ Hreach).
Defined.

(** C10. [run_bytecode] terminates: each pass through the loop body moves
    [ip] forward by one and nothing moves it back, so the loop makes
    exactly as many passes as the [ip] it ends with, which is at most the
    length of the bytecode.  With that many units of fuel or more the loop
    returns its result; with fewer it is cut short. *)
Theorem run_bytecode_terminates (bc : list Z) (input : list string) :
  ∃ r,
    run_bytecode bc input = Some r ∧
    (ip (final r) ≤ length bc)%nat ∧
    (∀ fuel, loop fuel bc (boot input)
             = if decide (ip (final r) ≤ fuel)%nat then Some r else None) ∧
    (∀ m, ip (machine_of (iteration bc m)) = S (ip m)).
Proof.
  destruct (run_bytecode_total bc input) as [r Hr]. exists r.
  destruct (loop_fuel bc _ _ _ Hr) as (_ & Hhi & Hfuel). simpl in *.
  split_and!; [done|lia| |apply iteration_ip].
  intros fuel. rewrite Hfuel. by rewrite Nat.sub_0_r.
Qed.


(** * Further properties of the code *)

(** ** Strings *)

Section Strings.

Local Arguments Str.mem : simpl never.

Lemma append_cons (c : ascii) (s t : string) : String c s +:+ t = String c (s +:+ t).
Proof. reflexivity. Qed.

Lemma append_nil_l (s : string) : EmptyString +:+ s = s.
Proof. reflexivity. Qed.

Lemma append_nil_r (s : string) : s +:+ EmptyString = s.
Proof.
  induction s as [|c s IH]; [done|]. by rewrite append_cons, IH.
Qed.

Lemma append_assoc (s t u : string) : (s +:+ t) +:+ u = s +:+ t +:+ u.
Proof.
  induction s as [|c s IH]; [done|]. by rewrite !append_cons, IH.
Qed.

Lemma append_length (s t : string) :
  String.length (s +:+ t) = (String.length s + String.length t)%nat.
Proof.
  induction s as [|c s IH]; [done|]. rewrite append_cons. simpl. by rewrite IH.
Qed.

Lemma append_inj_r (s t u : string) : s +:+ u = t +:+ u → s = t.
Proof.
  intros H.
  assert (String.length s = String.length t) as Hlen.
  { apply (f_equal String.length) in H. rewrite !append_length in H. lia. }
  revert t H Hlen. induction s as [|c s IH]; intros [|d t] H Hlen; try done.
  rewrite !append_cons in H. injection H as -> H. f_equal.
  apply IH; [done|]. simpl in Hlen. lia.
Qed.

Lemma mem_cons (c d : ascii) (s : string) :
  Str.mem c (String d s) = if Ascii.eqb c d then true else Str.mem c s.
Proof. reflexivity. Qed.

(** A string is cut in one way only at the first occurrence of a
    character. *)
Lemma append_cut_unique (c : ascii) (a b x y : string) :
  Str.mem c a = false → Str.mem c b = false →
  a +:+ String c x = b +:+ String c y → a = b ∧ x = y.
Proof.
  revert b. induction a as [|d a IH]; intros [|e b];
    rewrite ?append_cons, ?append_nil_l, ?mem_cons; intros Ha Hb H.
  - by injection H as ->.
  - injection H as <- _. by rewrite Ascii.eqb_refl in Hb.
  - injection H as -> _. by rewrite Ascii.eqb_refl in Ha.
  - injection H as -> H.
    destruct (Ascii.eqb c e); [done|].
    destruct (IH b Ha Hb H) as [-> ->]. done.
Qed.

Lemma decimal_no_colon (n : nat) : Str.mem ":" (Str.decimal n) = false.
Proof.
  unfold Str.decimal, NilZero.string_of_uint.
  assert (∀ d, Str.mem ":" (NilEmpty.string_of_uint d) = false) as Hd.
  { induction d; simpl; try done; by rewrite mem_cons. }
  destruct (Nat.to_uint n); try done; apply Hd.
Qed.

Lemma decimal_inj (n k : nat) : Str.decimal n = Str.decimal k → n = k.
Proof.
  unfold Str.decimal. intros H.
  assert (∀ i, Nat.to_uint i ≠ Decimal.Nil) as Hnil.
  { intros i Hi. pose proof (f_equal Nat.of_uint Hi) as Hi'.
    rewrite DecimalNat.Unsigned.of_to in Hi'.
    subst i. vm_compute in Hi. discriminate. }
  apply (f_equal NilZero.uint_of_string) in H.
  rewrite !NilZero.usu in H by apply Hnil.
  injection H as H. apply (f_equal Nat.of_uint) in H.
  by rewrite !DecimalNat.Unsigned.of_to in H.
Qed.

Lemma strip_left_blank (s : string) : all_blank s = true → Spec.strip_left s = EmptyString.
Proof.
  induction s as [|c s IH]; simpl; [done|].
  destruct (Str.mem c Str.blanks); [apply IH|done].
Qed.

Lemma strip_left_append (s u : string) :
  Spec.strip_left (s +:+ u) =
    if all_blank s then Spec.strip_left u else Spec.strip_left s +:+ u.
Proof.
  induction s as [|c s IH]; simpl; [done|].
  destruct (Str.mem c Str.blanks); [apply IH|done].
Qed.

Lemma strip_right_blank (s : string) : all_blank s = true → Spec.strip_right s = EmptyString.
Proof.
  induction s as [|c s IH]; simpl; [done|].
  destruct (Str.mem c Str.blanks); [|done]. intros H. by rewrite IH.
Qed.

Lemma strip_right_append_blank (s q : string) :
  all_blank q = true → Spec.strip_right (s +:+ q) = Spec.strip_right s.
Proof.
  intros Hq. induction s as [|c s IH]; simpl; [by apply strip_right_blank|].
  by rewrite IH.
Qed.

(** Blanks before and after a line do not change its trimmed text. *)
Lemma trimmed_padding (p s q : string) :
  all_blank p = true → all_blank q = true →
  Spec.trimmed (p +:+ s +:+ q) = Spec.trimmed s.
Proof.
  intros Hp Hq. unfold Spec.trimmed.
  rewrite strip_left_append, Hp, strip_left_append.
  destruct (all_blank s) eqn:Hs.
  - rewrite (strip_left_blank q Hq), (strip_left_blank s Hs). done.
  - by apply strip_right_append_blank.
Qed.

Lemma all_blank_append (s t : string) :
  all_blank (s +:+ t) = all_blank s && all_blank t.
Proof.
  induction s as [|c s IH]; [done|]. rewrite append_cons. simpl.
  rewrite IH. by destruct (Str.mem c Str.blanks).
Qed.

Lemma strip_left_split (s : string) :
  ∃ p, s = p +:+ Spec.strip_left s ∧ all_blank p = true.
Proof.
  induction s as [|c s (p & IH & Hp)]; simpl; [by exists EmptyString|].
  destruct (Str.mem c Str.blanks) eqn:Hc; [|by exists EmptyString].
  exists (String c p). split; [rewrite append_cons; by f_equal|].
  simpl. by rewrite Hc, Hp.
Qed.

Lemma strip_right_split (s : string) :
  ∃ q, s = Spec.strip_right s +:+ q ∧ all_blank q = true.
Proof.
  induction s as [|c s (q & IH & Hq)]; simpl; [by exists EmptyString|].
  destruct (Spec.strip_right s) as [|d t] eqn:Ht.
  - rewrite append_nil_l in IH. subst q.
    destruct (Str.mem c Str.blanks) eqn:Hc.
    + exists (String c s). split; [done|]. simpl. by rewrite Hc, Hq.
    + exists s. done.
  - exists q. split; [rewrite append_cons; by f_equal|done].
Qed.

Lemma strip_right_last (s : string) :
  Spec.strip_right s = EmptyString ∨
  ∃ c, last_char (Spec.strip_right s) = Some c ∧ Str.mem c Str.blanks = false.
Proof.
  induction s as [|c s IH]; simpl; [by left|].
  destruct (Spec.strip_right s) as [|d t] eqn:Ht.
  - destruct (Str.mem c Str.blanks) eqn:Hc; [by left|]. right. eauto.
  - right. destruct IH as [?|IH]; [done|]. exact IH.
Qed.

End Strings.

(** ** More on the assembler *)

Lemma assemble_from_Code (lines : list string) :
  ∀ i code out,
    assemble_from i lines code = Code out →
    ∃ ops, out = code ++ ops ∧ Spec.emits lines ops.
Proof.
  induction lines as [|raw rest IH]; intros i code out.
  - simpl. intros [= <-]. exists []. split; [by rewrite app_nil_r|constructor].
  - rewrite assemble_from_cons.
    destruct (Spec.ignorable raw) eqn:Hign.
    + intros H. destruct (IH _ _ _ H) as (ops & -> & Hops).
      exists ops. split; [done|]. by apply Spec.emits_skip.
    + destruct (MNEM !! Spec.trimmed raw) as [op|] eqn:Hop; [|done].
      intros H. destruct (IH _ _ _ H) as (ops & -> & Hops).
      exists (op :: ops). split; [by rewrite <- app_assoc|].
      apply Spec.emits_op; [|done]. by apply MNEM_table.
Qed.

Lemma emits_opcodes (lines : list string) (ops : list Z) :
  Spec.emits lines ops → Forall (λ b, b ∈ [0x01; 0x02; 0x03; 0xFF]) ops.
Proof.
  induction 1 as [|raw lines ops _ _ IH|raw op lines ops Hraw _ IH];
    [constructor|done|].
  constructor; [|done]. revert Hraw. unfold Spec.mnemonic_line, Spec.table.
  rewrite !elem_of_cons, !elem_of_nil.
  intros [[= _ ->]|[[= _ ->]|[[= _ ->]|[[= _ ->]|[]]]]]; tauto.
Qed.

Lemma emits_length (lines : list string) (ops : list Z) :
  Spec.emits lines ops →
  length ops = length (filter (λ raw, ¬ Spec.ignorable raw) lines).
Proof.
  induction 1 as [|raw lines ops Hraw _ IH|raw op lines ops Hraw _ IH]; [done|..].
  - rewrite filter_cons_False by (rewrite Hraw; auto). done.
  - destruct (mnemonic_line_emits raw op Hraw) as [Hign _].
    rewrite filter_cons_True by (rewrite Hign; auto). simpl. by rewrite IH.
Qed.

Lemma emits_not_offending (lines : list string) (ops : list Z) :
  Spec.emits lines ops → Forall (λ l, ¬ Spec.offending l) lines.
Proof.
  induction 1 as [|raw lines ops Hraw _ IH|raw op lines ops Hraw _ IH];
    constructor; try done.
  - rewrite offending_throws. intros [? _]. congruence.
  - rewrite offending_throws. intros [_ ?].
    destruct (mnemonic_line_emits raw op Hraw) as [_ ?]. congruence.
Qed.

Lemma not_offending_emits (lines : list string) :
  Forall (λ l, ¬ Spec.offending l) lines → ∃ ops, Spec.emits lines ops.
Proof.
  induction 1 as [|raw lines Hraw _ [ops IH]]; [exists []; constructor|].
  destruct (Spec.ignorable raw) eqn:Hign.
  { exists ops. by apply Spec.emits_skip. }
  destruct (MNEM !! Spec.trimmed raw) as [op|] eqn:Hop.
  - exists (op :: ops). apply Spec.emits_op; [|done]. by apply MNEM_table.
  - destruct Hraw. by apply offending_throws.
Qed.

(** The index [i] and the bytes [code] with which the loop is entered
    only shift the line number and prefix the output. *)
Lemma assemble_from_shift (lines : list string) :
  ∀ i code,
    match assemble_from 0 lines [] with
    | Code out => assemble_from i lines code = Code (code ++ out)
    | Throw _ =>
        ∃ k text, assemble_from 0 lines [] = Throw (invalid_instruction k text) ∧
          assemble_from i lines code = Throw (invalid_instruction (i + k) text)
    end.
Proof.
  induction lines as [|raw rest IH] using rev_ind; intros i code.
  { simpl. by rewrite app_nil_r. }
  assert (∀ j acc, assemble_from j (rest ++ [raw]) acc =
            match assemble_from j rest acc with
            | Code out => assemble_from (j + length rest) [raw] out
            | Throw what => Throw what
            end) as Hsnoc.
  { clear. induction rest as [|l rest IH]; intros j acc.
    - simpl app. simpl length. by rewrite Nat.add_0_r.
    - simpl app. rewrite !assemble_from_cons. simpl length.
      replace (j + S (length rest))%nat with (S j + length rest)%nat by lia.
      destruct (Spec.ignorable l); [apply IH|].
      destruct (MNEM !! Spec.trimmed l); [apply IH|done]. }
  rewrite !Hsnoc. specialize (IH i code).
  destruct (assemble_from 0 rest []) as [out|what].
  - rewrite IH. rewrite !assemble_from_cons. simpl.
    destruct (Spec.ignorable raw); [done|].
    destruct (MNEM !! Spec.trimmed raw); [by rewrite app_assoc|].
    eauto.
  - destruct IH as (k & text & -> & ->). eauto.
Qed.

Lemma assemble_from_trimmed (l1 l2 : list string) :
  Forall2 (λ a b, Spec.trimmed a = Spec.trimmed b) l1 l2 →
  ∀ i code, assemble_from i l1 code = assemble_from i l2 code.
Proof.
  induction 1 as [|a b l1 l2 Hab _ IH]; intros i code; [done|].
  rewrite !assemble_from_cons, !ignorable_trimmed, Hab.
  destruct (Str.empty _ || Str.front_is _ _); [apply IH|].
  destruct (MNEM !! Spec.trimmed b); [apply IH|done].
Qed.

(** X1. Assembly gives the code [ops] exactly when every line is
    ignorable or a mnemonic line and [ops] lists the opcodes of the
    mnemonic lines in order. *)
Theorem assemble_lines_Code_iff (lines : list string) (ops : list Z) :
  assemble_lines lines = Code ops ↔ Spec.emits lines ops.
Proof.
  unfold assemble_lines. split.
  - intros H. destruct (assemble_from_Code _ _ _ _ H) as (ops' & -> & Hops). done.
  - intros H. by rewrite (assemble_from_emits lines ops H).
Qed.

(** X2. Assembly succeeds exactly when no line is offending. *)
Theorem assemble_lines_succeeds_iff (lines : list string) :
  (∃ bc, assemble_lines lines = Code bc) ↔ Forall (λ l, ¬ Spec.offending l) lines.
Proof.
  split.
  - intros [bc H]. unfold assemble_lines in H.
    destruct (assemble_from_Code _ _ _ _ H) as (ops & _ & Hops).
    by eapply emits_not_offending.
  - intros H. destruct (not_offending_emits lines H) as [ops Hops].
    exists ops. unfold assemble_lines. by rewrite (assemble_from_emits lines ops Hops).
Qed.

(** X3. Every byte the assembler emits is one of the four opcodes. *)
Theorem assemble_lines_opcodes (lines : list string) (bc : list Z) :
  assemble_lines lines = Code bc → Forall (λ b, b ∈ [0x01; 0x02; 0x03; 0xFF]) bc.
Proof.
  unfold assemble_lines. intros H.
  destruct (assemble_from_Code _ _ _ _ H) as (ops & -> & Hops).
  by eapply emits_opcodes.
Qed.

Lemma assemble_lines_opcodes_demo :
  Forall (λ b, b ∈ [0x01; 0x02; 0x03; 0xFF]) [0x03; 0xFF].
Proof.
  apply (assemble_lines_opcodes ["# sum"; "  ADD"; ""; "HALT"]). reflexivity.
Defined.

(** X4. The assembler emits one byte for each line that is not ignorable:
    the code is as long as the number of such lines, and never longer than
    the number of lines, which is what [assemble_lines] reserves. *)
Theorem assemble_lines_length (lines : list string) (bc : list Z) :
  assemble_lines lines = Code bc →
  length bc = length (filter (λ raw, ¬ Spec.ignorable raw) lines) ∧
  (length bc ≤ length lines)%nat.
Proof.
  unfold assemble_lines. intros H.
  destruct (assemble_from_Code _ _ _ _ H) as (ops & -> & Hops).
  simpl. rewrite (emits_length lines ops Hops). split; [done|]. apply length_filter.
Qed.

Lemma assemble_lines_length_demo :
  length [0x03; 0xFF] = length (filter (λ raw, ¬ Spec.ignorable raw)
                                  ["# sum"; "  ADD"; ""; "HALT"]) ∧
  (length [0x03; 0xFF] ≤ length ["# sum"; "  ADD"; ""; "HALT"])%nat.
Proof.
  apply (assemble_lines_length ["# sum"; "  ADD"; ""; "HALT"]). reflexivity.
Defined.

Lemma assemble_from_app (l1 l2 : list string) :
  ∀ j acc,
    assemble_from j (l1 ++ l2) acc =
      match assemble_from j l1 acc with
      | Code out => assemble_from (j + length l1) l2 out
      | Throw what => Throw what
      end.
Proof.
  induction l1 as [|l l1 IH]; intros j acc.
  - simpl. by rewrite Nat.add_0_r.
  - simpl app. rewrite !assemble_from_cons. simpl length.
    replace (j + S (length l1))%nat with (S j + length l1)%nat by lia.
    destruct (Spec.ignorable l); [apply IH|].
    destruct (MNEM !! Spec.trimmed l); [apply IH|done].
Qed.

Lemma invalid_instruction_eq (i j : nat) (t u : string) :
  invalid_instruction i t = invalid_instruction j u → i = j ∧ t = u.
Proof.
  unfold invalid_instruction. intros H.
  apply (inj (String.append "Linha ")) in H.
  change (": instrucao invalida: '" +:+ ?x)
    with (String ":" (" instrucao invalida: '" +:+ x)) in H.
  apply append_cut_unique in H as [Hn H]; [|apply decimal_no_colon..].
  apply decimal_inj in Hn. apply (inj (String.append _)) in H.
  apply append_inj_r in H. split; [lia|done].
Qed.

Lemma mem_append (c : ascii) (s t : string) :
  Str.mem c (s +:+ t) = Str.mem c s || Str.mem c t.
Proof.
  induction s as [|d s IH]; [done|]. rewrite append_cons, !mem_cons, IH.
  by destruct (Ascii.eqb c d).
Qed.

Lemma c_str_cons (c : ascii) (s : string) :
  Str.c_str (String c s) =
    if Ascii.eqb zero c then EmptyString else String c (Str.c_str s).
Proof. by rewrite (Ascii.eqb_sym zero c). Qed.

Lemma c_str_id (s : string) : Str.mem zero s = false → Str.c_str s = s.
Proof.
  induction s as [|c s IH]; [done|]. rewrite mem_cons, c_str_cons.
  destruct (Ascii.eqb zero c); [done|]. intros H. by rewrite IH.
Qed.

(** A C string is cut in what follows a part without zero character. *)
Lemma c_str_append (p s : string) :
  Str.mem zero p = false → Str.c_str (p +:+ s) = p +:+ Str.c_str s.
Proof.
  induction p as [|c p IH]; [done|]. rewrite mem_cons, !append_cons, c_str_cons.
  destruct (Ascii.eqb zero c); [done|]. intros H. by rewrite IH.
Qed.

Lemma decimal_no_zero (n : nat) : Str.mem zero (Str.decimal n) = false.
Proof.
  unfold Str.decimal, NilZero.string_of_uint.
  assert (∀ d, Str.mem zero (NilEmpty.string_of_uint d) = false) as Hd.
  { induction d; simpl; try done; by rewrite mem_cons. }
  destruct (Nat.to_uint n); try done; apply Hd.
Qed.

(** What [what()] shows of the exception of lines 47 to 49: the line
    number always, the offending text up to its first zero character. *)
Lemma what_invalid_instruction (i : nat) (t : string) :
  Exn.what (invalid_instruction i t) =
    "Linha " +:+ Str.decimal (i + 1) +:+ ": instrucao invalida: '"
    +:+ Str.c_str (t +:+ "'").
Proof.
  unfold Exn.what, invalid_instruction.
  rewrite (c_str_append "Linha ") by done.
  rewrite c_str_append by apply decimal_no_zero.
  by rewrite (c_str_append ": instrucao invalida: '") by done.
Qed.

Lemma what_invalid_instruction_whole (i : nat) (t : string) :
  Str.mem zero t = false →
  Exn.what (invalid_instruction i t) = invalid_instruction i t.
Proof.
  intros Ht. rewrite what_invalid_instruction. unfold invalid_instruction.
  rewrite c_str_id; [done|]. rewrite mem_append, Ht. done.
Qed.

(** X5. The text that [what()] shows of the exception of lines 47 to 49
    tells the line numbers apart, and the offending texts too when they
    hold no zero character: two such texts are equal only for the same
    line, and then only for the same offending text. *)
Theorem invalid_instruction_inj (i j : nat) (t u : string) :
  Exn.what (invalid_instruction i t) = Exn.what (invalid_instruction j u) →
  i = j ∧ (Str.mem zero t = false → Str.mem zero u = false → t = u).
Proof.
  intros H. split.
  - rewrite !what_invalid_instruction in H.
    apply (inj (String.append "Linha ")) in H.
    change (": instrucao invalida: '" +:+ ?x)
      with (String ":" (" instrucao invalida: '" +:+ x)) in H.
    apply append_cut_unique in H as [Hn _]; [|apply decimal_no_colon..].
    apply decimal_inj in Hn. lia.
  - intros Ht Hu. rewrite !what_invalid_instruction_whole in H by done.
    by apply invalid_instruction_eq in H as [_ ?].
Qed.

Lemma invalid_instruction_inj_demo :
  (2 = 2)%nat ∧ (Str.mem zero "FOO" = false → Str.mem zero "FOO" = false → "FOO" = "FOO").
Proof. apply (invalid_instruction_inj 2 2 "FOO" "FOO"). reflexivity. Defined.

(** C7. When some line is offending (its trimmed text is not empty, does
    not start with the hash sign and is not a mnemonic), assembly throws at
    the first such line, whatever follows that line.  The text of the
    exception, as [what()] gives it, carries the position of that line in
    the whole sequence, counted from 1 and counting skipped lines, and
    the trimmed text of the line: all of it when it holds no zero
    character, as the lines of a text file do, and else what comes
    before the first zero character. *)
Theorem assemble_lines_first_offending (lines : list string) :
  Exists Spec.offending lines →
  ∃ pre raw post,
    lines = pre ++ raw :: post ∧
    Forall (λ l, ¬ Spec.offending l) pre ∧
    Spec.offending raw ∧
    ∀ post',
      ∃ message,
        assemble_lines (pre ++ raw :: post') = Throw message ∧
        (Str.mem zero (Spec.trimmed raw) = false →
         Exn.what message =
           "Linha " +:+ Str.decimal (length pre + 1)
           +:+ ": instrucao invalida: '" +:+ Spec.trimmed raw +:+ "'") ∧
        Exn.what message =
          "Linha " +:+ Str.decimal (length pre + 1)
          +:+ ": instrucao invalida: '" +:+ Str.c_str (Spec.trimmed raw +:+ "'").
Proof.
  intros Hex.
  destruct (assemble_from_first_offending lines Hex)
    as (pre & raw & post & Hlines & Hpre & Hraw & Hthrow).
  exists pre, raw, post. split_and!; [done..|].
  intros post'. exists (invalid_instruction (length pre) (Spec.trimmed raw)).
  split_and!.
  - unfold assemble_lines. by rewrite Hthrow.
  - intros Hfree. by rewrite what_invalid_instruction_whole.
  - apply what_invalid_instruction.
Qed.

(** In READ, blank, FOO, BAR the first offending line is the third. *)
Lemma assemble_lines_first_offending_FOO :
  Exists Spec.offending ["READ"; ""; "FOO "; "BAR"] ∧
  ∃ message,
    assemble_lines ["READ"; ""; "FOO "; "BAR"] = Throw message ∧
    Exn.what message = "Linha 3: instrucao invalida: 'FOO'".
Proof.
  assert (Exists Spec.offending ["READ"; ""; "FOO "; "BAR"]) as Hex.
  { apply Exists_cons_tl, Exists_cons_tl, Exists_cons_hd.
    unfold Spec.offending. vm_compute. split_and!; congruence. }
  split; [exact Hex|].
  destruct (assemble_lines_first_offending _ Hex)
    as (pre & raw & post & Hlines & Hpre & Hraw & Hthrow).
  destruct (Hthrow post) as (message & Hmessage & Hwhole & _).
  rewrite <- Hlines in Hmessage. exists message. split; [done|]. clear Hmessage Hthrow.
  destruct pre as [|l1 [|l2 [|l3 [|l4 pre]]]]; simplify_eq/=.
  - destruct Hraw as (_ & _ & Hm). vm_compute in Hm. congruence.
  - destruct Hraw as (Hne & _). vm_compute in Hne. congruence.
  - rewrite Hwhole by (vm_compute; reflexivity). vm_compute. reflexivity.
  - apply Forall_cons in Hpre as [_ Hpre]. apply Forall_cons in Hpre as [_ Hpre].
    apply Forall_cons in Hpre as [Hfoo _]. destruct Hfoo.
    unfold Spec.offending. vm_compute. split_and!; congruence.
  - destruct pre; discriminate.
Defined.

(** X6. Assembling [l1 ++ l2]: a failure in [l1] is the failure of the
    whole; when both parts assemble, the code is the two codes one after
    the other; a failure at line [k] of [l2] is reported with the length
    of [l1] added to the line number, and the same text. *)
Theorem assemble_lines_app (l1 l2 : list string) :
  (∀ what, assemble_lines l1 = Throw what → assemble_lines (l1 ++ l2) = Throw what) ∧
  (∀ c1 c2, assemble_lines l1 = Code c1 → assemble_lines l2 = Code c2 →
            assemble_lines (l1 ++ l2) = Code (c1 ++ c2)) ∧
  (∀ c1 k text,
     assemble_lines l1 = Code c1 →
     assemble_lines l2 = Throw (invalid_instruction k text) →
     assemble_lines (l1 ++ l2) = Throw (invalid_instruction (length l1 + k) text)).
Proof.
  unfold assemble_lines. rewrite assemble_from_app. split_and!.
  - by intros what ->.
  - intros c1 c2 -> H2. simpl.
    pose proof (assemble_from_shift l2 (length l1) c1) as H. by rewrite H2 in H.
  - intros c1 k text -> H2. simpl.
    pose proof (assemble_from_shift l2 (length l1) c1) as H. rewrite H2 in H.
    destruct H as (k' & text' & Heq & ->).
    assert (invalid_instruction k text = invalid_instruction k' text') as Heq'
      by congruence.
    by apply invalid_instruction_eq in Heq' as [-> ->].
Qed.

Lemma assemble_lines_app_demo :
  assemble_lines (["READ"; "# then"] ++ ["ADD"; "print"])
  = Throw (invalid_instruction (2 + 1) "print").
Proof.
  apply (proj2 (proj2 (assemble_lines_app ["READ"; "# then"] ["ADD"; "print"])) [0x01]);
    reflexivity.
Defined.

(** X7. Blanks before and after the text of a line make no difference to
    what is assembled, nor to the exception that is thrown. *)
Theorem assemble_lines_padding (l1 l2 : list string) :
  Forall2 (λ a b, ∃ p q, all_blank p = true ∧ all_blank q = true ∧ b = p +:+ a +:+ q)
    l1 l2 →
  assemble_lines l2 = assemble_lines l1.
Proof.
  intros H. unfold assemble_lines. apply assemble_from_trimmed.
  induction H as [|a b l1 l2 (p & q & Hp & Hq & ->) _ IH]; constructor; [|done].
  by apply trimmed_padding.
Qed.

Lemma assemble_lines_padding_demo :
  assemble_lines ["  READ" +:+ String "013" ""; String "009" "FOO "]
  = assemble_lines ["READ"; "FOO"].
Proof.
  apply assemble_lines_padding.
  constructor; [exists "  ", (String "013" ""); by split_and!|].
  constructor; [exists (String "009" ""), " "; by split_and!|].
  constructor.
Defined.

Section TrimCut.

Local Arguments Str.mem : simpl never.

(** X8. The trimming of lines 40 to 43 skips a line exactly when it holds
    blanks only; else it cuts the line into blanks, the text it keeps and
    blanks again, and the text it keeps starts and ends with a character
    that is not a blank. *)
Theorem trim_cuts_blanks (raw : string) :
  match trim raw with
  | None => all_blank raw = true
  | Some t =>
      ∃ p q, raw = p +:+ t +:+ q ∧ all_blank p = true ∧ all_blank q = true ∧
        (∃ c, String.get 0 t = Some c ∧ Str.mem c Str.blanks = false) ∧
        (∃ c, last_char t = Some c ∧ Str.mem c Str.blanks = false)
  end.
Proof.
  rewrite trim_trimmed.
  destruct (strip_left_split raw) as (p & Hraw & Hp).
  destruct (strip_right_split (Spec.strip_left raw)) as (q & Hleft & Hq).
  fold (Spec.trimmed raw) in Hleft.
  destruct (Spec.trimmed raw) as [|d t] eqn:Ht; simpl.
  - rewrite append_nil_l in Hleft. rewrite Hraw, Hleft, all_blank_append, Hp, Hq. done.
  - exists p, q. split_and!; [by rewrite <- Hleft|done..| |].
    + pose proof (trimmed_front raw) as Hfront. rewrite Ht in Hfront.
      unfold Spec.first_nonblank in Hfront. simpl in Hfront.
      destruct (strip_left_cases raw) as [Hnil|(c & s & Hc & Hmem)].
      { rewrite Hnil in Hfront. done. }
      rewrite Hc in Hfront. simpl in Hfront. injection Hfront as ->. eauto.
    + pose proof (strip_right_last (Spec.strip_left raw)) as Hlast.
      fold (Spec.trimmed raw) in Hlast. rewrite Ht in Hlast.
      destruct Hlast as [?|?]; done.
Qed.

End TrimCut.

(** ** Two runs side by side *)

Section Simulation.
Variable bc : list Z.
Variable R : machine → machine → Prop.
Hypothesis R_ip : ∀ m1 m2, R m1 m2 → ip m1 = ip m2.
Hypothesis R_iteration : ∀ m1 m2,
  R m1 m2 →
  match iteration bc m1, iteration bc m2 with
  | Continue a, Continue b => R a b
  | Return s a, Return t b => s = t ∧ R a b
  | _, _ => False
  end.

(** Machines that [R] relates, and that stay related through each pass,
    leave the loop together, with the same status. *)
Lemma loop_simulation (n : nat) (m1 m2 : machine) :
  R m1 m2 → option_Forall2 (same_result R) (loop n bc m1) (loop n bc m2).
Proof.
  revert m1 m2. induction n as [|n IH]; intros m1 m2 HR;
    rewrite !loop_unfold, <- (R_ip m1 m2 HR);
    (destruct (decide (ip m1 < length bc)%nat); [|by constructor]).
  - constructor.
  - pose proof (R_iteration m1 m2 HR) as Hit.
    destruct (iteration bc m1), (iteration bc m2); try done.
    + by apply IH.
    + destruct Hit as [-> ?]. by constructor.
Qed.

End Simulation.

Section Inputs.
Variable bc : list Z.

Lemma same_shape_iteration (m1 m2 : machine) :
  same_shape m1 m2 →
  match iteration bc m1, iteration bc m2 with
  | Continue a, Continue b => same_shape a b
  | Return s a, Return t b => s = t ∧ same_shape a b
  | _, _ => False
  end.
Proof.
  intros (Hip & Hst & Hco & Hce).
  destruct (iteration_cases bc m1)
    as [(Hop & _)|[(Hop & Hs & _)|[(Hop & Hs & _)|[[Hop _]|
        [(Hop & Hs & _)|[(Hop & Hs & _)|(Hop & _)]]]]]];
    pose proof Hop as Hop2; rewrite Hip in Hop2.
  - rewrite (iteration_READ bc m1), (iteration_READ bc m2) by done.
    unfold same_shape. simpl. rewrite !length_app. simpl. split_and!; congruence.
  - destruct (vec_nonempty _ Hs) as (s1 & b1 & Hs1).
    assert (stack m2 ≠ []) as Hs' by (intros E; rewrite Hs1, E, length_app in Hst; simpl in Hst; lia).
    destruct (vec_nonempty _ Hs') as (s2 & b2 & Hs2).
    rewrite (iteration_PRINT bc m1 s1 b1), (iteration_PRINT bc m2 s2 b2) by done.
    rewrite Hs1, Hs2, !length_app in Hst. simpl in Hst.
    unfold same_shape. simpl. rewrite !length_app. simpl. split_and!; try done; lia.
  - destruct (vec_two _ Hs) as (s1 & b1 & a1 & Hs1).
    destruct (vec_two (stack m2)) as (s2 & b2 & a2 & Hs2); [lia|].
    rewrite (iteration_ADD bc m1 s1 b1 a1), (iteration_ADD bc m2 s2 b2 a2) by done.
    rewrite Hs1, Hs2, !length_app in Hst. simpl in Hst.
    unfold same_shape. simpl. rewrite !length_app. simpl. split_and!; try done; lia.
  - rewrite (iteration_HALT bc m1), (iteration_HALT bc m2) by done.
    unfold same_shape. simpl. split_and!; congruence.
  - assert (stack m2 = []) as Hs2 by (rewrite Hs in Hst; by destruct (stack m2)).
    rewrite (iteration_PRINT_underflow bc m1), (iteration_PRINT_underflow bc m2) by done.
    unfold same_shape. simpl. split_and!; congruence.
  - rewrite (iteration_ADD_underflow bc m1), (iteration_ADD_underflow bc m2) by (done || lia).
    unfold same_shape. simpl. split_and!; congruence.
  - rewrite (iteration_unknown bc m1), (iteration_unknown bc m2) by done.
    unfold same_shape. simpl. rewrite Hip, Hce. split_and!; congruence.
Qed.

Section ButInput.
Variable P : list string → list string → Prop.
Hypothesis P_read : ∀ k1 k2,
  P k1 k2 →
  (read_byte_from_stdin k1).1 = (read_byte_from_stdin k2).1 ∧
  P (read_byte_from_stdin k1).2 (read_byte_from_stdin k2).2.

Lemma same_but_input_iteration (m1 m2 : machine) :
  same_but_input P m1 m2 →
  match iteration bc m1, iteration bc m2 with
  | Continue a, Continue b => same_but_input P a b
  | Return s a, Return t b => s = t ∧ same_but_input P a b
  | _, _ => False
  end.
Proof.
  intros (Hip & Hst & Hco & Hce & Hin).
  destruct (iteration_cases bc m1)
    as [(Hop & _)|[(Hop & Hs & _)|[(Hop & Hs & _)|[[Hop _]|
        [(Hop & Hs & _)|[(Hop & Hs & _)|(Hop & _)]]]]]];
    pose proof Hop as Hop2; rewrite Hip in Hop2.
  - rewrite (iteration_READ bc m1), (iteration_READ bc m2) by done.
    destruct (P_read _ _ Hin) as [Hv Hrest].
    unfold same_but_input. simpl. rewrite Hv. split_and!; congruence.
  - destruct (vec_nonempty _ Hs) as (s1 & b1 & Hs1).
    rewrite (iteration_PRINT bc m1 s1 b1), (iteration_PRINT bc m2 s1 b1) by congruence.
    unfold same_but_input. simpl. split_and!; congruence.
  - destruct (vec_two _ Hs) as (s1 & b1 & a1 & Hs1).
    rewrite (iteration_ADD bc m1 s1 b1 a1), (iteration_ADD bc m2 s1 b1 a1) by congruence.
    unfold same_but_input. simpl. split_and!; congruence.
  - rewrite (iteration_HALT bc m1), (iteration_HALT bc m2) by done.
    unfold same_but_input. simpl. split_and!; congruence.
  - rewrite (iteration_PRINT_underflow bc m1), (iteration_PRINT_underflow bc m2) by congruence.
    unfold same_but_input. simpl. split_and!; congruence.
  - rewrite (iteration_ADD_underflow bc m1), (iteration_ADD_underflow bc m2) by congruence.
    unfold same_but_input. simpl. split_and!; congruence.
  - rewrite (iteration_unknown bc m1), (iteration_unknown bc m2) by done.
    unfold same_but_input. simpl. rewrite Hip. split_and!; congruence.
Qed.

Lemma run_bytecode_same_but_input (in1 in2 : list string) :
  P in1 in2 →
  option_Forall2 (same_result (same_but_input P))
    (run_bytecode bc in1) (run_bytecode bc in2).
Proof.
  intros Hin. unfold run_bytecode.
  apply loop_simulation; [by intros ?? [? _]|apply same_but_input_iteration|].
  unfold same_but_input. simpl. done.
Qed.

End ButInput.

Lemma line_values_read (k1 k2 : list string) :
  Forall2 (λ a b, line_value a = line_value b) k1 k2 →
  (read_byte_from_stdin k1).1 = (read_byte_from_stdin k2).1 ∧
  Forall2 (λ a b, line_value a = line_value b)
    (read_byte_from_stdin k1).2 (read_byte_from_stdin k2).2.
Proof.
  intros [|a b k1' k2' Hab Hrest]; [by split|].
  destruct a, b; simpl in *; by split.
Qed.

Lemma padded_read (k1 k2 : list string) :
  padded k1 k2 →
  (read_byte_from_stdin k1).1 = (read_byte_from_stdin k2).1 ∧
  padded (read_byte_from_stdin k1).2 (read_byte_from_stdin k2).2.
Proof.
  intros [n ->]. destruct k1 as [|s k1].
  - destruct n as [|n]; simpl; (split; [done|]); [by exists 0%nat|by exists n].
  - destruct s; simpl; (split; [done|]); by exists n.
Qed.

End Inputs.

Lemma run_bytecode_pair (bc : list Z) (R : machine → machine → Prop)
    (in1 in2 : list string) :
  option_Forall2 (same_result R) (run_bytecode bc in1) (run_bytecode bc in2) →
  ∃ r1 r2,
    run_bytecode bc in1 = Some r1 ∧ run_bytecode bc in2 = Some r2 ∧
    status r1 = status r2 ∧ R (final r1) (final r2).
Proof.
  destruct (run_bytecode_total bc in1) as [r1 ->].
  destruct (run_bytecode_total bc in2) as [r2 ->].
  intros H. inversion H as [? ? [Hst HR]|]; subst. eauto 10.
Qed.

(** X9. What is on the input decides neither whether a program fails nor
    where: on any two inputs the same bytecode returns the same status
    after the same number of fetched bytes, with stacks of the same
    height, outputs of the same length and the same diagnostic. *)
Theorem run_bytecode_input_independent (bc : list Z) (in1 in2 : list string) :
  ∃ r1 r2,
    run_bytecode bc in1 = Some r1 ∧ run_bytecode bc in2 = Some r2 ∧
    status r1 = status r2 ∧ ip (final r1) = ip (final r2) ∧
    length (stack (final r1)) = length (stack (final r2)) ∧
    length (cout (final r1)) = length (cout (final r2)) ∧
    cerr (final r1) = cerr (final r2).
Proof.
  assert (option_Forall2 (same_result same_shape)
            (run_bytecode bc in1) (run_bytecode bc in2)) as H.
  { apply loop_simulation; [by intros ?? [? _]|apply same_shape_iteration|].
    unfold same_shape. simpl. done. }
  destruct (run_bytecode_pair _ _ _ _ H)
    as (r1 & r2 & ? & ? & ? & Hip & Hs & Hc & He).
  exists r1, r2. done.
Qed.

(** X10. Of each input line a run sees the first character only: two
    inputs with as many lines, whose lines agree in what READ pushes for
    them, give the same status, stack, output and diagnostic. *)
Theorem run_bytecode_first_characters (bc : list Z) (in1 in2 : list string) :
  Forall2 (λ a b, line_value a = line_value b) in1 in2 →
  ∃ r1 r2,
    run_bytecode bc in1 = Some r1 ∧ run_bytecode bc in2 = Some r2 ∧
    status r1 = status r2 ∧ ip (final r1) = ip (final r2) ∧
    stack (final r1) = stack (final r2) ∧ cout (final r1) = cout (final r2) ∧
    cerr (final r1) = cerr (final r2).
Proof.
  intros Hin.
  destruct (run_bytecode_pair _ _ _ _
              (run_bytecode_same_but_input bc _ line_values_read in1 in2 Hin))
    as (r1 & r2 & ? & ? & ? & Hip & Hs & Hc & He & _).
  exists r1, r2. done.
Qed.

Lemma run_bytecode_first_characters_demo :
  ∃ r1 r2,
    run_bytecode [OP_READ; OP_READ; OP_ADD; OP_PRINT] ["AB"; "!"] = Some r1 ∧
    run_bytecode [OP_READ; OP_READ; OP_ADD; OP_PRINT] ["A"; "!!!"] = Some r2 ∧
    status r1 = status r2 ∧ ip (final r1) = ip (final r2) ∧
    stack (final r1) = stack (final r2) ∧ cout (final r1) = cout (final r2) ∧
    cerr (final r1) = cerr (final r2).
Proof.
  apply run_bytecode_first_characters. repeat constructor.
Defined.

(** X11. An empty line and the end of the input are the same to a run:
    empty lines added at the end of the input change neither the status
    nor the stack, the output or the diagnostic. *)
Theorem run_bytecode_empty_lines (bc : list Z) (input : list string) (n : nat) :
  ∃ r1 r2,
    run_bytecode bc input = Some r1 ∧
    run_bytecode bc (input ++ replicate n EmptyString) = Some r2 ∧
    status r1 = status r2 ∧ ip (final r1) = ip (final r2) ∧
    stack (final r1) = stack (final r2) ∧ cout (final r1) = cout (final r2) ∧
    cerr (final r1) = cerr (final r2).
Proof.
  assert (padded input (input ++ replicate n EmptyString)) as Hin by (by exists n).
  destruct (run_bytecode_pair _ _ _ _
              (run_bytecode_same_but_input bc _ padded_read _ _ Hin))
    as (r1 & r2 & ? & ? & ? & Hip & Hs & Hc & He & _).
  exists r1, r2. done.
Qed.

(** ** Bytes after the point of return *)

(** X12. A run that fails fails on the prefix it has fetched: with any
    bytes appended to the bytecode it returns the same status and leaves
    the same machine. *)
Theorem run_bytecode_failure_ignores_rest (bc rest : list Z) (input : list string)
    (r : finished) :
  run_bytecode bc input = Some r → status r ≠ 0 →
  run_bytecode (bc ++ rest) input = Some r.
Proof.
  intros Hr Hst.
  destruct (run_bytecode_sound bc input r Hr) as (m & Hreach & Hleave).
  destruct (decide (ip m < length bc)%nat) as [Hlt|Hge].
  - apply (run_bytecode_leaves _ input m); [by apply reachable_app|by apply leaves_app].
  - unfold leaves in Hleave. rewrite decide_False in Hleave by done. by subst r.
Qed.

Lemma run_bytecode_failure_ignores_rest_demo :
  run_bytecode ([OP_READ; OP_ADD] ++ [OP_PRINT; OP_HALT]) ["A"]
  = Some (Finished 2 {| ip := 2; stack := [65]; cin := []; cout := [];
                        cerr := ["[VM] Stack underflow em ADD"] |}).
Proof.
  apply run_bytecode_failure_ignores_rest; [reflexivity|simpl; lia].
Defined.

(** ** One program after another *)

Section Rebase.
Variables bc1 bc2 : list Z.

Lemma iteration_rebase (m : machine) :
  iteration (bc1 ++ bc2) (rebase (length bc1) m) =
    match iteration bc2 m with
    | Continue m' => Continue (rebase (length bc1) m')
    | Return st m' => Return st (rebase (length bc1) m')
    end.
Proof.
  unfold iteration. simpl.
  replace (fetch (bc1 ++ bc2) (length bc1 + ip m)) with (fetch bc2 (ip m))
    by (unfold fetch; by rewrite app_nth2_plus).
  unfold dispatch, rebase. simpl.
  repeat (case_decide || case_match); simpl; rewrite ?Nat.add_succ_r; done.
Qed.

Lemma loop_rebase (n : nat) (m : machine) :
  loop n (bc1 ++ bc2) (rebase (length bc1) m) =
    rebase_result (length bc1) <$> loop n bc2 m.
Proof.
  revert m. induction n as [|n IH]; intros m; rewrite !loop_unfold;
    rewrite length_app; simpl ip.
  - destruct (decide (ip m < length bc2)%nat);
      [rewrite decide_True by lia|rewrite decide_False by lia]; done.
  - destruct (decide (ip m < length bc2)%nat);
      [rewrite decide_True by lia|rewrite decide_False by lia]; [|done].
    rewrite iteration_rebase. destruct (iteration bc2 m); [apply IH|done].
Qed.

End Rebase.

(** X13. Programs compose by concatenation: when the run of [bc1] comes
    to the end of [bc1] in the state [m], the run of [bc1 ++ bc2] goes on
    from [m] as the loop over [bc2] does from its first byte, and returns
    what that loop returns, with the length of [bc1] added to [ip]. *)
Theorem run_bytecode_app (bc1 bc2 : list Z) (input : list string) (m : machine) :
  reachable bc1 input m → ip m = length bc1 →
  run_bytecode (bc1 ++ bc2) input =
    rebase_result (length bc1) <$> loop (length bc2) bc2 (restart m).
Proof.
  intros Hreach Hip.
  destruct (loop_total bc2 (length bc2) (restart m)) as [r2 Hr2]; [simpl; lia|].
  rewrite Hr2. simpl.
  pose proof (loop_rebase bc1 bc2 (length bc2) (restart m)) as Hloop.
  rewrite Hr2 in Hloop. simpl in Hloop.
  replace (rebase (length bc1) (restart m)) with m in Hloop
    by (destruct m; unfold rebase, restart; simpl in *; by rewrite Nat.add_0_r, Hip).
  destruct (loop_sound _ _ _ _ Hloop) as (m' & Hsteps & Hleave).
  apply (run_bytecode_leaves _ input m'); [|done].
  unfold reachable. etrans; [by apply reachable_app|done].
Qed.

Lemma run_bytecode_app_demo :
  run_bytecode ([OP_READ; OP_READ] ++ [OP_ADD; OP_PRINT]) ["A"; "!"]
  = Some (Finished 0 {| ip := 4; stack := []; cin := []; cout := [98]; cerr := [] |}).
Proof.
  rewrite (run_bytecode_app [OP_READ; OP_READ] [OP_ADD; OP_PRINT] ["A"; "!"]
             {| ip := 2; stack := [65; 33]; cin := []; cout := []; cerr := [] |});
    [reflexivity| |reflexivity].
  eapply rtc_l; [split; [simpl; lia|reflexivity]|].
  eapply rtc_l; [split; [simpl; lia|reflexivity]|].
  apply rtc_refl.
Defined.

(** ** What a run reads, writes and reports *)

Section Accounting.
Variable bc : list Z.
Variable input : list string.

Lemma take_S_fetch (i : nat) :
  (i < length bc)%nat → take (S i) bc = take i bc ++ [fetch bc i].
Proof.
  intros Hi. apply take_S_r. unfold fetch.
  destruct (nth_lookup_or_length bc i 0) as [?|?]; [done|lia].
Qed.

Lemma occurrences_snoc (op x : Z) (l : list Z) :
  occurrences op (l ++ [x]) =
    (occurrences op l + if decide (x = op) then 1 else 0)%nat.
Proof.
  unfold occurrences. rewrite filter_app, length_app. f_equal.
  rewrite filter_cons, filter_nil. by case_decide.
Qed.

Lemma occurrences_take (op : Z) (i : nat) :
  (occurrences op (take i bc) ≤ occurrences op bc)%nat.
Proof.
  unfold occurrences. rewrite <- (take_drop i bc) at 2.
  rewrite filter_app, length_app. lia.
Qed.

Lemma read_rest (k : list string) : (read_byte_from_stdin k).2 = tail k.
Proof. by destruct k as [|[|c s] k]. Qed.

Lemma tail_drop (k : nat) (l : list string) : tail (drop k l) = drop (S k) l.
Proof.
  revert l. induction k as [|k IH]; intros [|x l]; simpl; try done.
Qed.

(** While the loop goes on nothing is reported, and the output and the
    input are where the PRINTs and the READs fetched so far put them. *)
Lemma reachable_accounting (m : machine) :
  reachable bc input m →
  (ip m ≤ length bc)%nat ∧ cerr m = [] ∧ Forall Spec.byte (cout m) ∧
  length (cout m) = occurrences OP_PRINT (take (ip m) bc) ∧
  cin m = drop (occurrences OP_READ (take (ip m) bc)) input.
Proof.
  unfold reachable. revert m. apply rtc_ind_r.
  { simpl. split_and!; [lia|done|constructor|done|done]. }
  intros m m' _ [Hlt Hit] (_ & Herr & Hout & Hlen & Hin).
  pose proof (iteration_ip bc m) as Hip. rewrite Hit in Hip. simpl in Hip.
  rewrite Hip, (take_S_fetch _ Hlt), !occurrences_snoc.
  split; [lia|].
  destruct (iteration_cases bc m)
    as [(Hop & _)|[(Hop & Hs & _)|[(Hop & Hs & _)|[[_ H]|
        [(_ & _ & ? & H)|[(_ & _ & ? & H)|(_ & ? & H)]]]]]]; try congruence.
  - rewrite (iteration_READ bc m Hop) in Hit. injection Hit as <-. simpl.
    rewrite Hop, read_rest, Hin, tail_drop.
    rewrite decide_False, decide_True by done.
    split_and!; try done; [lia|f_equal; lia].
  - destruct (vec_nonempty _ Hs) as (s & b & Hsb).
    rewrite (iteration_PRINT bc m s b Hop Hsb) in Hit. injection Hit as <-. simpl.
    rewrite Hop, decide_True, decide_False by done.
    rewrite length_app, Nat.add_0_r. simpl. split_and!; try done; [|lia].
    apply Forall_app. split; [done|]. apply Forall_singleton, land_0xFF_byte.
  - destruct (vec_two _ Hs) as (s & b & a & Hsba).
    rewrite (iteration_ADD bc m s b a Hop Hsba) in Hit. injection Hit as <-. simpl.
    rewrite Hop, !decide_False, !Nat.add_0_r by done.
    split_and!; done.
Qed.

End Accounting.

(** X14. A run writes bytes only, at most one for each PRINT of the
    bytecode, and reads the input from the front, at most one line for
    each READ of the bytecode: what it leaves of the input is the input
    without its first [k] lines. *)
Theorem run_bytecode_io_bounds (bc : list Z) (input : list string) (r : finished) :
  run_bytecode bc input = Some r →
  Forall Spec.byte (cout (final r)) ∧
  (length (cout (final r)) ≤ occurrences OP_PRINT bc)%nat ∧
  ∃ k, (k ≤ occurrences OP_READ bc)%nat ∧ cin (final r) = drop k input.
Proof.
  intros Hr.
  destruct (run_bytecode_sound bc input r Hr) as (m & Hreach & Hleave).
  destruct (reachable_accounting bc input m Hreach) as (_ & _ & Hout & Hlen & Hin).
  assert (cout (final r) = cout m ∧ cin (final r) = cin m) as [-> ->].
  { unfold leaves in Hleave. case_decide.
    - destruct Hleave as (st & m' & Hit & ->). simpl.
      by apply iteration_Return in Hit as (_ & _ & -> & ->).
    - by subst r. }
  split_and!; [done|rewrite Hlen; apply occurrences_take|].
  eexists. split; [|exact Hin]. apply occurrences_take.
Qed.

Lemma run_bytecode_io_bounds_demo :
  Forall Spec.byte [65] ∧
  (length [65] ≤ occurrences OP_PRINT [OP_READ; OP_PRINT; OP_HALT; OP_READ])%nat ∧
  ∃ k, (k ≤ occurrences OP_READ [OP_READ; OP_PRINT; OP_HALT; OP_READ])%nat ∧
       ["B"; "C"] = drop k ["A"; "B"; "C"].
Proof.
  apply (run_bytecode_io_bounds [OP_READ; OP_PRINT; OP_HALT; OP_READ] ["A"; "B"; "C"]
           (Finished 0 {| ip := 3; stack := []; cin := ["B"; "C"]; cout := [65];
                          cerr := [] |})).
  reflexivity.
Defined.

Lemma run_bytecode_reports (bc : list Z) (input : list string) (r : finished) :
  run_bytecode bc input = Some r →
  (status r = 0 → cerr (final r) = []) ∧
  (status r = 2 →
     (fetch bc (ip (final r) - 1) = OP_PRINT ∧
      cerr (final r) = ["[VM] Stack underflow em PRINT"]) ∨
     (fetch bc (ip (final r) - 1) = OP_ADD ∧
      cerr (final r) = ["[VM] Stack underflow em ADD"])) ∧
  (status r = 3 →
     cerr (final r) =
       ["[VM] Opcode desconhecido: 0x" +:+ Hex.byte (fetch bc (ip (final r) - 1))]).
Proof.
  intros Hr.
  destruct (run_bytecode_sound bc input r Hr) as (m & Hreach & Hleave).
  destruct (reachable_accounting bc input m Hreach) as (_ & Herr & _).
  unfold leaves in Hleave. case_decide as Hlt; [|subst r; simpl; by split_and!].
  destruct Hleave as (st & m' & Hit & ->). simpl.
  destruct (iteration_cases bc m)
    as [(Hop & ? & H)|[(Hop & Hs & ? & H)|[(Hop & Hs & ? & H)|[[Hop H]|
        [(Hop & Hs & _)|[(Hop & Hs & _)|(Hop & _)]]]]]]; try congruence.
  - rewrite H in Hit. injection Hit as <- <-. simpl. by split_and!.
  - rewrite (iteration_PRINT_underflow bc m Hop Hs) in Hit.
    injection Hit as <- <-. simpl. rewrite Nat.sub_0_r, Herr.
    split_and!; [done|by left|done].
  - rewrite (iteration_ADD_underflow bc m Hop Hs) in Hit.
    injection Hit as <- <-. simpl. rewrite Nat.sub_0_r, Herr.
    split_and!; [done|by right|done].
  - rewrite (iteration_unknown bc m Hop) in Hit.
    injection Hit as <- <-. simpl. rewrite Nat.sub_0_r, Herr. by split_and!.
Qed.

(** X15. A run reports exactly its failure: with status 0 nothing is
    written to the error stream; with status 2 the one line that names
    the underflowing opcode, PRINT or ADD, which is the last byte fetched;
    with status 3 the one line that shows the last byte fetched. *)
Theorem run_bytecode_diagnostic (bc : list Z) (input : list string) (r : finished) :
  run_bytecode bc input = Some r →
  (status r = 0 → cerr (final r) = []) ∧
  (status r = 2 →
     (fetch bc (ip (final r) - 1) = OP_PRINT ∧
      cerr (final r) = ["[VM] Stack underflow em PRINT"]) ∨
     (fetch bc (ip (final r) - 1) = OP_ADD ∧
      cerr (final r) = ["[VM] Stack underflow em ADD"])) ∧
  (status r = 3 →
     cerr (final r) =
       ["[VM] Opcode desconhecido: 0x" +:+ Hex.byte (fetch bc (ip (final r) - 1))]).
Proof. apply run_bytecode_reports. Qed.

Lemma run_bytecode_diagnostic_demo :
  cerr {| ip := 2; stack := [65]; cin := []; cout := [];
          cerr := ["[VM] Opcode desconhecido: 0x0a"] |}
  = ["[VM] Opcode desconhecido: 0x" +:+ Hex.byte (fetch [OP_READ; 0x0a; OP_HALT] (2 - 1))].
Proof.
  apply (run_bytecode_diagnostic [OP_READ; 0x0a; OP_HALT] ["A"]
           (Finished 3 {| ip := 2; stack := [65]; cin := []; cout := [];
                          cerr := ["[VM] Opcode desconhecido: 0x0a"] |}));
    reflexivity.
Defined.

(** X16. The byte in the diagnostic of an unknown opcode is printed as
    [%02x] prints it: the hexadecimal numeral in lower case, with a
    leading zero below 16. *)
Theorem Hex_byte_numeral (op : Z) :
  0 ≤ op ≤ 255 →
  Hex.byte op =
    (if op <? 16 then "0" else "") +:+
      HexadecimalString.NilZero.string_of_uint (N.to_hex_uint (Z.to_N op)).
Proof.
  intros Hop.
  assert (Forall (λ op, Hex.byte op =
            (if op <? 16 then "0" else "") +:+
              HexadecimalString.NilZero.string_of_uint (N.to_hex_uint (Z.to_N op)))
            (seqZ 0 256)) as Hall.
  { apply (bool_decide_unpack _). vm_compute. exact I. }
  rewrite Forall_forall in Hall. apply Hall. apply elem_of_seqZ. lia.
Qed.

Lemma Hex_byte_numeral_demo : Hex.byte 10 = "0a".
Proof. rewrite Hex_byte_numeral by lia. reflexivity. Defined.

(** X17. Bytecode that the assembler produced never runs into an unknown
    opcode: on every input its run returns 0 or 2. *)
Theorem assembled_code_is_known (lines : list string) (bc : list Z)
    (input : list string) :
  assemble_lines lines = Code bc →
  ∃ r, run_bytecode bc input = Some r ∧ (status r = 0 ∨ status r = 2).
Proof.
  unfold assemble_lines. intros H.
  destruct (assemble_from_Code _ _ _ _ H) as (ops & -> & Hops). simpl.
  pose proof (emits_opcodes lines ops Hops) as Hknown.
  destruct (run_bytecode_total ops input) as [r Hr]. exists r. split; [done|].
  destruct (run_bytecode_sound ops input r Hr) as (m & _ & Hleave).
  destruct (leaves_status ops m r Hleave) as ([?|[?|H3]] & _ & _ & Hunknown); auto.
  apply Hunknown in H3 as [Hlt Hno]. destruct Hno.
  rewrite (Forall_nth _ 0) in Hknown. by apply Hknown.
Qed.

Lemma assembled_code_is_known_demo :
  ∃ r, run_bytecode [0x03; 0xFF] ["A"] = Some r ∧ (status r = 0 ∨ status r = 2).
Proof.
  apply (assembled_code_is_known ["# sum"; "  ADD"; ""; "HALT"]). reflexivity.
Defined.

(** ** Files and lines *)

Section Streams.

Lemma until_newline_split (s : string) :
  one_line (Stream.until_newline s).1 = true ∧
  (s = (Stream.until_newline s).1 +:+ String "010" (Stream.until_newline s).2 ∨
   (s = (Stream.until_newline s).1 ∧ (Stream.until_newline s).2 = EmptyString)).
Proof.
  induction s as [|c s (IH1 & IH2)]; simpl; [by split; [|right]|].
  destruct (Ascii.eqb_spec c "010") as [->|Hc]; simpl; [by split; [|left]|].
  destruct (Stream.until_newline s) as [line rest]; simpl in *.
  assert ((c =? "010")%char = false) as -> by (by apply Ascii.eqb_neq).
  split; [done|]. rewrite append_cons.
  destruct IH2 as [->|[-> ->]]; [by left|by right].
Qed.

Lemma until_newline_shorter (c : ascii) (s : string) :
  (String.length (Stream.until_newline (String c s)).2 ≤ String.length s)%nat.
Proof.
  revert c. induction s as [|d s IH]; intros c; simpl.
  - by destruct (Ascii.eqb c "010").
  - destruct (Ascii.eqb c "010"); [done|].
    specialize (IH d). simpl in IH.
    destruct (Ascii.eqb d "010"); simpl in *; [lia|].
    destruct (Stream.until_newline s); simpl in *. lia.
Qed.

Lemma until_newline_line (l rest : string) :
  one_line l = true → Stream.until_newline (l +:+ String "010" rest) = (l, rest).
Proof.
  induction l as [|c l IH]; [done|]. rewrite append_cons. simpl.
  destruct (Ascii.eqb c "010"); [done|]. intros Hl. by rewrite IH.
Qed.

Lemma read_lines_Some (n : nat) :
  ∀ text acc,
    (String.length text ≤ n)%nat →
    ∃ lines,
      Stream.read_lines n text acc = Some (acc ++ lines) ∧
      Forall (λ l, one_line l = true) lines ∧
      (unlines lines = text ∨ unlines lines = text +:+ String "010" EmptyString).
Proof.
  induction n as [|n IH]; intros [|c s] acc Hn; simpl in Hn; try lia.
  - exists []. split_and!; [by rewrite app_nil_r|constructor|by left].
  - exists []. split_and!; [by rewrite app_nil_r|constructor|by left].
  - pose proof (until_newline_split (String c s)) as (Hline & Hsplit).
    pose proof (until_newline_shorter c s) as Hshort.
    unfold Stream.read_lines; fold Stream.read_lines. unfold Stream.getline.
    destruct (Stream.until_newline (String c s)) as [line rest]; simpl in *.
    destruct Hsplit as [Hs|[Hs ->]]; rewrite Hs.
    + destruct (IH rest (Vec.push_back acc line)) as (lines & -> & Hlines & Hjoin);
        [lia|].
      exists (line :: lines). unfold Vec.push_back. rewrite <- app_assoc.
      split_and!; [done|by constructor|]. simpl.
      destruct Hjoin as [->| ->]; [by left|right]. by rewrite append_assoc.
    + exists [line]. split_and!; [by destruct n|by constructor|by right].
Qed.

Lemma unlines_length (lines : list string) :
  (length lines ≤ String.length (unlines lines))%nat.
Proof.
  induction lines as [|l lines IH]; simpl; [done|].
  rewrite append_length. simpl. lia.
Qed.

Lemma read_lines_unlines (lines : list string) :
  Forall (λ l, one_line l = true) lines →
  ∀ n acc, (length lines ≤ n)%nat →
    Stream.read_lines n (unlines lines) acc = Some (acc ++ lines).
Proof.
  induction 1 as [|l lines Hl _ IH]; intros n acc Hn.
  - destruct n; simpl; by rewrite app_nil_r.
  - destruct n as [|n]; simpl in Hn; [lia|].
    change (unlines (l :: lines)) with (l +:+ String "010" (unlines lines)).
    unfold Stream.read_lines; fold Stream.read_lines. unfold Stream.getline.
    destruct (l +:+ String "010" (unlines lines)) as [|c s] eqn:Hs.
    { by destruct l. }
    rewrite <- Hs, (until_newline_line l _ Hl).
    rewrite IH by lia. unfold Vec.push_back. by rewrite <- app_assoc.
Qed.

Lemma bytes_chars (bc : list Z) :
  Forall Spec.byte bc → Stream.bytes (Stream.chars bc) = bc.
Proof.
  unfold Stream.bytes, Stream.chars. rewrite list_ascii_of_string_of_list_ascii.
  induction 1 as [|b bc Hb _ IH]; [done|]. simpl. f_equal; [|done].
  unfold Spec.byte in Hb. rewrite N_ascii_embedding by lia. lia.
Qed.

Lemma chars_bytes (s : string) : Stream.chars (Stream.bytes s) = s.
Proof.
  unfold Stream.bytes, Stream.chars.
  rewrite <- (string_of_list_ascii_of_string s) at 2. f_equal.
  generalize (list_ascii_of_string s). intros l.
  induction l as [|c l IH]; [done|]. simpl.
  rewrite N2Z.id, ascii_N_embedding. by f_equal.
Qed.

End Streams.

(** X18. Reading a file line by line undoes the writing of lines: when
    no line holds a line feed, the loop of line 126 reads from the text
    made of the lines, each ended by a line feed, exactly these lines. *)
Theorem read_lines_of_unlines (lines : list string) :
  Forall (λ l, one_line l = true) lines →
  Stream.read_lines (String.length (unlines lines)) (unlines lines) [] = Some lines.
Proof.
  intros H. apply (read_lines_unlines lines H _ []). apply unlines_length.
Qed.

Lemma read_lines_of_unlines_demo :
  Stream.read_lines (String.length (unlines ["READ"; ""; "# end"]))
    (unlines ["READ"; ""; "# end"]) [] = Some ["READ"; ""; "# end"].
Proof. apply read_lines_of_unlines. repeat constructor. Defined.

(** X19. The loop of line 126 reads every text to its end: it gives lines
    without line feeds which, each ended by a line feed, make up the text
    again, or the text with the line feed that its last line lacks. *)
Theorem read_lines_splits (text : string) :
  ∃ lines,
    Stream.read_lines (String.length text) text [] = Some lines ∧
    Forall (λ l, one_line l = true) lines ∧
    (unlines lines = text ∨ unlines lines = text +:+ String "010" EmptyString).
Proof.
  destruct (read_lines_Some (String.length text) text []) as (lines & H); [done|].
  exists lines. done.
Qed.

(** X20. Bytecode survives the file: the characters written for bytes
    from 0 to 255 are read back as the same bytes, and the bytes read
    from a file are written back as the same file. *)
Theorem bytecode_file_round_trip :
  (∀ bc, Forall Spec.byte bc → Stream.bytes (Stream.chars bc) = bc) ∧
  (∀ s, Stream.chars (Stream.bytes s) = s).
Proof. split; [apply bytes_chars|apply chars_bytes]. Qed.

Lemma bytecode_file_round_trip_demo :
  Stream.bytes (Stream.chars [0x01; 0x02; 0x03; 0xFF]) = [0x01; 0x02; 0x03; 0xFF].
Proof.
  apply (proj1 bytecode_file_round_trip). repeat constructor; unfold Spec.byte; lia.
Defined.

(** ** The command line *)

Lemma status_of_run (bc : list Z) (input : list string) :
  ∃ r, run_bytecode bc input = Some r ∧
    (status r = 0 ∨ status r = 2 ∨ status r = 3) ∧
    (status r ≠ 0 → cerr (final r) ≠ []).
Proof.
  destruct (run_bytecode_total bc input) as [r Hr]. exists r. split; [done|].
  destruct (run_bytecode_sound bc input r Hr) as (m & _ & Hleave).
  destruct (leaves_status bc m r Hleave) as (Hst & _).
  split; [done|]. intros Hne.
  destruct (run_bytecode_reports bc input r Hr) as (_ & H2 & H3).
  destruct Hst as [?|[Hs|Hs]]; [done| |].
  - destruct (H2 Hs) as [[_ ->]|[_ ->]]; done.
  - by rewrite (H3 Hs).
Qed.

(** X21. [main] always returns, with 0, 1, 2 or 3.  When it does not
    return 0 it has written a diagnostic and has changed no file; when it
    returns 1 it has, besides, written nothing to the standard output and
    read nothing from the standard input. *)
Theorem main_exit (argv : list string) (w : os) :
  ∃ e, main argv w = Some e ∧
    exit_code e ∈ [0; 1; 2; 3] ∧
    (exit_code e ≠ 0 → files_left e = files w ∧ stderr e ≠ []) ∧
    (exit_code e = 1 → stdout e = [] ∧ stdin_left e = stdin w).
Proof.
  assert (∀ d, d ≠ [] →
    ∃ e, Some (bail_out w d) = Some e ∧ exit_code e ∈ [0; 1; 2; 3] ∧
      (exit_code e ≠ 0 → files_left e = files w ∧ stderr e ≠ []) ∧
      (exit_code e = 1 → stdout e = [] ∧ stdin_left e = stdin w)) as Hgive.
  { intros d Hd. eexists. split; [done|]. simpl. split_and!; [set_solver|done..]. }
  unfold main. destruct argv as [|prog [|cmd args]]; try by apply Hgive.
  destruct (decide (cmd = "assemble")) as [_|_];
    [|destruct (decide (cmd = "run")) as [_|_]; [|by apply Hgive]].
  - unfold main_assemble.
    destruct args as [|src [|out [|x args]]]; try by apply Hgive.
    destruct (files w !! src) as [text|]; [|by apply Hgive].
    destruct (read_lines_Some (String.length text) text []) as (lines & -> & _);
      [done|]. simpl.
    destruct (assemble_lines lines) as [bc|what]; [|by apply Hgive].
    destruct (creatable w out); [|by apply Hgive].
    eexists. split; [done|]. simpl. split_and!; [set_solver|done..].
  - unfold main_run.
    destruct args as [|path [|x args]]; try by apply Hgive.
    destruct (files w !! path) as [text|]; [|by apply Hgive].
    destruct (status_of_run (Stream.bytes text) (stdin w)) as (r & -> & Hst & Herr).
    eexists. split; [done|]. simpl. split_and!.
    + destruct Hst as [->|[->| ->]]; set_solver.
    + intros Hne. split; [done|by apply Herr].
    + intros H1. destruct Hst as [?|[?|?]]; lia.
Qed.

(** X22. What [assemble] writes, [run] runs: after a successful
    [assemble src out] the source has been read and assembled to some
    code, and [run out], started on the files left and on any input, does
    what [run_bytecode] does on that code, and returns 0 or 2. *)
Theorem main_assemble_then_run (p1 src out : string) (w : os) (e : exited) :
  main [p1; "assemble"; src; out] w = Some e → exit_code e = 0 →
  ∃ text lines bc,
    files w !! src = Some text ∧
    Stream.read_lines (String.length text) text [] = Some lines ∧
    assemble_lines lines = Code bc ∧
    ∀ p2 c input,
      ∃ r, run_bytecode bc input = Some r ∧ (status r = 0 ∨ status r = 2) ∧
        main [p2; "run"; out] (Os (files_left e) c input)
        = Some (Exited (status r) (files_left e) (cin (final r)) (cout (final r))
                  (cerr (final r))).
Proof.
  unfold main. rewrite decide_True by done. unfold main_assemble.
  destruct (files w !! src) as [text|] eqn:Htext; [|by intros [= <-]].
  destruct (Stream.read_lines (String.length text) text []) as [lines|] eqn:Hlines;
    [|done].
  simpl. destruct (assemble_lines lines) as [bc|what] eqn:Hbc; [|by intros [= <-]].
  destruct (creatable w out); [|by intros [= <-]].
  intros [= <-] _. exists text, lines, bc. split_and!; [done..|].
  intros p2 c input. simpl.
  pose proof Hbc as Hops. unfold assemble_lines in Hops.
  destruct (assemble_from_Code _ _ _ _ Hops) as (ops & Heq & Hemits).
  simpl in Heq. subst ops.
  pose proof (emits_opcodes lines bc Hemits) as Hknown.
  assert (Forall Spec.byte bc) as Hbytes.
  { eapply Forall_impl; [exact Hknown|]. intros b Hb. unfold Spec.byte.
    revert Hb. rewrite !elem_of_cons, elem_of_nil. lia. }
  destruct (run_bytecode_total bc input) as [r Hr]. exists r. split; [done|].
  split.
  - destruct (run_bytecode_sound bc input r Hr) as (m & _ & Hleave).
    destruct (leaves_status bc m r Hleave) as ([?|[?|H3]] & _ & _ & Hunknown); auto.
    apply Hunknown in H3 as [Hlt Hno]. destruct Hno.
    rewrite (Forall_nth _ 0) in Hknown. by apply Hknown.
  - rewrite lookup_insert_eq, (bytes_chars bc Hbytes), Hr. done.
Qed.

Lemma main_assemble_then_run_demo :
  exit_code <$>
    main ["tinyvm_min"; "run"; "p.tbc"]
      (Os (<["p.tbc" := Stream.chars [0x01; 0x02]]>
             {[ "p.src" := unlines ["READ"; "# echo"; "PRINT"] ]})
          (λ _, false) ["A"])
  = Some 0.
Proof.
  destruct (main_assemble_then_run "tinyvm_min" "p.src" "p.tbc"
              (Os {[ "p.src" := unlines ["READ"; "# echo"; "PRINT"] ]} (λ _, true) [])
              (Exited 0
                 (<["p.tbc" := Stream.chars [0x01; 0x02]]>
                    {[ "p.src" := unlines ["READ"; "# echo"; "PRINT"] ]})
                 [] [] ["OK: gerado p.tbc (2 bytes)"]))
    as (text & lines & bc & Htext & Hlines & Hbc & Hrun);
    [vm_compute; reflexivity|reflexivity|].
  vm_compute in Htext. injection Htext as <-.
  vm_compute in Hlines. injection Hlines as <-.
  vm_compute in Hbc. injection Hbc as <-.
  destruct (Hrun "tinyvm_min" (λ _, false) ["A"]) as (r & Hr & _ & Hmain).
  refine (eq_trans (f_equal (fmap exit_code) Hmain) _). simpl.
  vm_compute in Hr. injection Hr as <-. reflexivity.
Defined.

(** ** The instruction that fails *)

Section Prefix.
Variable bc : list Z.
Variable input : list string.

Lemma fetch_take (k i : nat) : (i < k)%nat → fetch (take k bc) i = fetch bc i.
Proof.
  intros Hi. unfold fetch. rewrite !nth_lookup. by rewrite lookup_take_lt.
Qed.

(** The passes that lead to [m] fetch bytes before [ip m] only. *)
Lemma reachable_take (m : machine) :
  reachable bc input m →
  ∀ k, (ip m ≤ k)%nat → reachable (take k bc) input m.
Proof.
  unfold reachable. revert m. apply (rtc_ind_r (λ m, ∀ k, (ip m ≤ k)%nat →
    rtc (step (take k bc)) (boot input) m)); [done|].
  intros m m' _ Hstep IH k Hk.
  pose proof (step_ip bc m m' Hstep) as Hip. destruct Hstep as [Hlt Hit].
  eapply rtc_r; [apply IH; lia|].
  split; [rewrite length_take; lia|].
  unfold iteration in *. rewrite fetch_take by lia. done.
Qed.

End Prefix.

(** X23. The instruction that fails does nothing but fail: when a run
    returns 2 or 3, the bytecode cut before the last byte fetched runs to
    its end on the same input, and leaves the stack, the input and the
    output that the failed run leaves. *)
Theorem run_bytecode_failure_is_clean (bc : list Z) (input : list string)
    (r : finished) :
  run_bytecode bc input = Some r → status r ≠ 0 →
  ∃ m,
    run_bytecode (take (ip (final r) - 1) bc) input = Some (Finished 0 m) ∧
    ip (final r) = S (ip m) ∧ stack (final r) = stack m ∧
    cin (final r) = cin m ∧ cout (final r) = cout m.
Proof.
  intros Hr Hst.
  destruct (run_bytecode_sound bc input r Hr) as (m & Hreach & Hleave).
  unfold leaves in Hleave. case_decide as Hlt; [|by subst r].
  destruct Hleave as (st & m' & Hit & ->). simpl in *.
  apply iteration_Return in Hit as (Hip & Hs & Hi & Ho).
  exists m. rewrite Hip, Hs, Hi, Ho. simpl. rewrite Nat.sub_0_r.
  split; [|done].
  apply (run_bytecode_leaves _ input m); [by apply reachable_take|].
  unfold leaves. rewrite decide_False; [done|]. rewrite length_take. lia.
Qed.

Lemma run_bytecode_failure_is_clean_demo :
  ∃ m,
    run_bytecode (take (3 - 1) [OP_READ; OP_PRINT; OP_ADD; OP_HALT]) ["A"]
    = Some (Finished 0 m) ∧
    3%nat = S (ip m) ∧ [] = stack m ∧ [] = cin m ∧ [65] = cout m.
Proof.
  apply (run_bytecode_failure_is_clean [OP_READ; OP_PRINT; OP_ADD; OP_HALT] ["A"]
           (Finished 2 {| ip := 3; stack := []; cin := []; cout := [65];
                          cerr := ["[VM] Stack underflow em ADD"] |}));
    [reflexivity|simpl; lia].
Defined.
